(** * Azure OpenAI document pipeline: request orchestration, verified

    A shallow embedding of the Python sources
    - [PYTHON/azure_openai_service.py] (rate limiter, retrying chat call,
      response cleanup and structured extraction),
    - [Models/document_models.py] (the VAT field validator and the batch
      processor),
    - [PYTHON/monitoring.py] (the metrics collector),
    - [PYTHON/prompt_optimizer.py] (the prompt optimizer) and the phone and
      VAT substitutions of [PYTHON/security.py],
    together with the properties the specification states about them and
    further properties read off the code.

    Conventions.
    - A [datetime] is an integer number of microseconds ([Z]); a
      [timedelta(seconds=n)] is [n * 1000000] of them.
    - Python [int] is [Z].  A Python [str] is a [string]; a character is a
      code point below 256, and the character classes ([str.strip]'s white
      space, [str.isdigit]) are Python's, restricted to that range.
    - A function that may raise returns a sum or a small result type whose
      constructors name the exception; where a call may also never return,
      the result type has a constructor for that. *)

From Stdlib Require Import ZArith QArith List String Ascii Bool Lia.
From Stdlib Require Import Sorting.Permutation Sorting.Sorted.
From stdpp Require Import gmap strings.
Import ListNotations.

Local Open Scope Z_scope.

(* [simpl] unfolds string concatenation on a constructor, as for lists. *)
#[local] Arguments String.append : simpl nomatch.

(** ** Small utilities shared by the modules *)

(** Python's [sum(xs)]: a left fold started at [0]. *)
Definition py_sum (xs : list Z) : Z := fold_left Z.add xs 0.

(** * The rate limiter ([RateLimiter], azure_openai_service.py) *)

Module RateLimiter.

(** Microseconds in [timedelta(seconds=n)]. *)
Definition timedelta (seconds : Z) : Z := seconds * 1000000.

(** The object's fields, the lock apart (it is part of the task machine
    below). *)
Record t := mk {
  max_requests : Z;
  max_tokens : Z;
  window_seconds : Z;
  requests : list Z;
  tokens_used : list (Z * Z)
}.

(** [RateLimiter(max_requests, max_tokens, window_seconds=60)]. *)
Definition init (max_requests max_tokens window_seconds : Z) : t :=
  mk max_requests max_tokens window_seconds [] [].

Definition cutoff (s : t) (now : Z) : Z := now - timedelta (window_seconds s).

(** [[r for r in self.requests if r > cutoff]] *)
Definition prune_requests (c : Z) (rs : list Z) : list Z :=
  List.filter (fun r => c <? r) rs.

(** [[(t, tokens) for t, tokens in self.tokens_used if t > cutoff]] *)
Definition prune_tokens (c : Z) (ts : list (Z * Z)) : list (Z * Z) :=
  List.filter (fun e => c <? fst e) ts.

Definition sum_tokens (ts : list (Z * Z)) : Z := py_sum (List.map snd ts).

(** What the body of [async with self._lock:] decides. *)
Inductive decision :=
| Admit (s' : t)
| Wait (s' : t) (wait_time : Z).

(** Lines 38-59: the critical section of [acquire], with the clock
    reading [now] made explicit.  [wait_time] is in microseconds. *)
Definition acquire_body (s : t) (now estimated_tokens : Z) : decision :=
  let c := cutoff s now in
  let reqs := prune_requests c (requests s) in
  let toks := prune_tokens c (tokens_used s) in
  let current_requests := Z.of_nat (List.length reqs) in
  let current_tokens := sum_tokens toks in
  if (max_requests s <=? current_requests)
     || (max_tokens s <? current_tokens + estimated_tokens)
  then
    Wait (mk (max_requests s) (max_tokens s) (window_seconds s) reqs toks)
         (match reqs with
          | r0 :: _ => r0 - c
          | [] => timedelta 1
          end)
  else
    Admit (mk (max_requests s) (max_tokens s) (window_seconds s)
              (reqs ++ [now]) (toks ++ [(now, estimated_tokens)])).

(** The entries of a ledger that lie in the trailing window at [now]. *)
Definition requests_in_window (s : t) (now : Z) : list Z :=
  prune_requests (cutoff s now) (requests s).

Definition tokens_in_window (s : t) (now : Z) : Z :=
  sum_tokens (prune_tokens (cutoff s now) (tokens_used s)).


(** A sequence of calls, each with the clock reading it sees and its
    estimate; the trace keeps, for every call that reaches the critical
    section, the ledger it found, its arguments and the decision.  A call
    that takes the waiting branch does not return (see
    [acquire_wait_deadlocks] below), so the calls behind it never reach
    the critical section. *)
Fixpoint acquire_calls (s : t) (calls : list (Z * Z))
    : list (t * Z * Z * decision) :=
  match calls with
  | [] => []
  | (now, est) :: rest =>
      let d := acquire_body s now est in
      (s, now, est, d) :: match d with
                          | Admit s' => acquire_calls s' rest
                          | Wait _ _ => []
                          end
  end.

(** *** The task machine: [acquire] with its lock

    [asyncio.Lock] is not re-entrant: [async with self._lock] awaits
    [lock.acquire()], which completes only while the lock is free. *)

Inductive frame :=
| EnterLock (estimated_tokens : Z)   (* at [async with self._lock:] *)
| Body (estimated_tokens : Z)        (* lines 38-51, lock held *)
| Sleeping (estimated_tokens wait_time : Z)  (* line 54, inside the block *)
| AwaitInner                         (* line 55: awaiting the inner call *)
| ExitLock.                          (* leaving the [async with] block *)

Record config := mkc {
  locked : bool;
  limiter : t;
  clock : Z;
  stack : list frame
}.

Inductive step_result :=
| Next (c : config)
| Blocked          (* awaiting a lock that is held *)
| Returned.        (* the outermost call has returned *)

Definition step (c : config) : step_result :=
  match stack c with
  | [] => Returned
  | EnterLock est :: k =>
      if locked c then Blocked
      else Next (mkc true (limiter c) (clock c) (Body est :: k))
  | Body est :: k =>
      match acquire_body (limiter c) (clock c) est with
      | Admit s' => Next (mkc (locked c) s' (clock c) (ExitLock :: k))
      | Wait s' w => Next (mkc (locked c) s' (clock c) (Sleeping est w :: k))
      end
  | Sleeping est w :: k =>
      Next (mkc (locked c) (limiter c) (clock c + w)
                (EnterLock est :: AwaitInner :: k))
  | AwaitInner :: k => Next (mkc (locked c) (limiter c) (clock c) (ExitLock :: k))
  | ExitLock :: k => Next (mkc false (limiter c) (clock c) k)
  end.

(** The configurations a task goes through, at most [fuel] steps. *)
Fixpoint run (fuel : nat) (c : config) : list config * step_result :=
  match fuel with
  | O => ([], Next c)
  | S fuel' =>
      match step c with
      | Next c' => let '(tr, r) := run fuel' c' in (c' :: tr, r)
      | r => ([], r)
      end
  end.

(** A task calling [acquire(estimated_tokens)] at time [now]. *)
Definition call (s : t) (now estimated_tokens : Z) : config :=
  mkc false s now [EnterLock estimated_tokens].

(** The task is suspended in [asyncio.sleep] while the lock is held. *)
Definition sleeps_holding_lock (c : config) : Prop :=
  locked c = true /\ exists est w k, stack c = Sleeping est w :: k.

End RateLimiter.

(** * Python string operations used by the sources *)

Module PyStr.

Local Open Scope string_scope.

(** White space for [str.strip()]: the code points below 256 on which
    [str.isspace] holds. *)
Definition isspace (c : ascii) : bool :=
  let n := nat_of_ascii c in
  ((9 <=? n) && (n <=? 13) || (28 <=? n) && (n <=? 32)
   || (n =? 133) || (n =? 160))%nat.

(** The code points below 256 on which [str.isdigit] holds: [0]-[9] and the
    superscripts U+00B2, U+00B3, U+00B9. *)
Definition isdigit_char (c : ascii) : bool :=
  let n := nat_of_ascii c in
  ((48 <=? n) && (n <=? 57) || (n =? 178) || (n =? 179) || (n =? 185))%nat.

Fixpoint all_chars (p : ascii -> bool) (s : string) : bool :=
  match s with
  | EmptyString => true
  | String c s' => p c && all_chars p s'
  end.

(** [s.isdigit()]: every character is a digit and there is at least one. *)
Definition isdigit (s : string) : bool :=
  match s with
  | EmptyString => false
  | _ => all_chars isdigit_char s
  end.

(** [s.replace(old, new)] for a one-character [old]. *)
Fixpoint replace (old : ascii) (new : string) (s : string) : string :=
  match s with
  | EmptyString => EmptyString
  | String c s' =>
      if Ascii.eqb c old then new ++ replace old new s'
      else String c (replace old new s')
  end.

Fixpoint lstrip (s : string) : string :=
  match s with
  | EmptyString => EmptyString
  | String c s' => if isspace c then lstrip s' else s
  end.

Fixpoint rstrip (s : string) : string :=
  match s with
  | EmptyString => EmptyString
  | String c s' =>
      match rstrip s' with
      | EmptyString => if isspace c then EmptyString else String c EmptyString
      | r => String c r
      end
  end.

(** [s.strip()] *)
Definition strip (s : string) : string := rstrip (lstrip s).

(** [s.startswith(p)] *)
Definition startswith (s p : string) : bool := String.prefix p s.

(** [s[n:]] *)
Fixpoint drop (n : nat) (s : string) : string :=
  match n, s with
  | O, _ => s
  | S n', String _ s' => drop n' s'
  | S _, EmptyString => EmptyString
  end.

(** [s.split(sep)] for a non-empty [sep]: the pieces between the
    occurrences of [sep], found left to right without overlap.  [skip]
    counts the characters of a matched separator still to pass over; the
    result is the piece being read and the pieces after it. *)
Fixpoint split_go (sep : string) (skip : nat) (s : string) : string * list string :=
  match s with
  | EmptyString => (EmptyString, [])
  | String c s' =>
      match skip with
      | S n => split_go sep n s'
      | O =>
          if String.prefix sep s
          then (EmptyString,
                let '(p, ps) := split_go sep (String.length sep - 1) s' in p :: ps)
          else let '(p, ps) := split_go sep 0 s' in (String c p, ps)
      end
  end.

Definition split (sep s : string) : list string :=
  let '(p, ps) := split_go sep 0 s in p :: ps.

(** [sep] occurs in [s] (as [sep in s], for a non-empty [sep]). *)
Fixpoint contains (sep s : string) : bool :=
  match s with
  | EmptyString => false
  | String _ s' => String.prefix sep s || contains sep s'
  end.

End PyStr.

(** * Structured extraction ([AzureOpenAIService.extract_structured_data]) *)

Module Extraction.

Local Open Scope string_scope.

(** The fence marker of a Markdown code block. *)
Definition fence : string := "```".

(** Lines 175-180, the cleanup of the raw response.  [split(fence)[1]]
    exists whenever the text starts with the marker
    ([split_fence_second_piece] below), so the last branch of the match is
    never taken. *)
Definition cleanup (json_response : string) : string :=
  let clean_json := PyStr.strip json_response in
  let clean_json :=
    if PyStr.startswith clean_json fence then
      let clean_json :=
        match PyStr.split fence clean_json with
        | _ :: piece :: _ => piece
        | _ => EmptyString
        end in
      if PyStr.startswith clean_json "json" then PyStr.drop 4 clean_json
      else clean_json
    else clean_json in
  PyStr.strip clean_json.

(** What a call either returns or raises.  [ValueError] is the only
    exception the function raises itself. *)
Inductive outcome (T : Type) :=
| Return (v : T)
| RaiseValueError (msg : string).
Arguments Return {T} v.
Arguments RaiseValueError {T} msg.

(** Lines 182-187.  [json_loads] and [model_validate] stand for
    [json.loads] and the model's [model_validate]; each returns its value or
    the text [str(e)] of the error it raises ([json.JSONDecodeError], and
    pydantic's [ValidationError]: both are subclasses of [ValueError], so
    the one [except] clause takes both). *)
Definition parse_and_validate {J T : Type}
    (json_loads : string -> J + string)
    (model_validate : J -> T + string)
    (clean_json : string) : outcome T :=
  match json_loads clean_json with
  | inr e => RaiseValueError ("Impossibile parsare risposta come JSON: " ++ e)
  | inl data =>
      match model_validate data with
      | inr e => RaiseValueError ("Impossibile parsare risposta come JSON: " ++ e)
      | inl v => Return v
      end
  end.

(** [extract_structured_data], from the text [complete_chat] returned. *)
Definition extract_structured_data {J T : Type}
    (json_loads : string -> J + string)
    (model_validate : J -> T + string)
    (json_response : string) : outcome T :=
  parse_and_validate json_loads model_validate (cleanup json_response).

(** A response wrapped in a fenced block: the opening marker with a
    language tag, the content on lines of its own, the closing marker. *)
Definition fenced (tag content : string) : string :=
  fence ++ tag ++ String "010" (content ++ String "010" fence).

(** The two failure kinds the specification names. *)
Inductive failure_kind := ParseFailure | SchemaViolation.

(** A caller's reading [kind_of] of an outcome tells the two kinds apart:
    whatever the parser and the validator are, a parse failure reads as
    [ParseFailure] and a validation failure as [SchemaViolation]. *)
Definition tells_failures_apart {T : Type}
    (kind_of : outcome T -> option failure_kind) : Prop :=
  forall (J : Type) (json_loads : string -> J + string)
         (model_validate : J -> T + string) (json_response : string),
    (forall e, json_loads (cleanup json_response) = inr e ->
       kind_of (extract_structured_data json_loads model_validate json_response)
       = Some ParseFailure) /\
    (forall d e, json_loads (cleanup json_response) = inl d ->
       model_validate d = inr e ->
       kind_of (extract_structured_data json_loads model_validate json_response)
       = Some SchemaViolation).

(** The double quote, and the JSON text of the one-element array holding
    the string made of the fence marker. *)
Definition dquote : string := String (ascii_of_nat 34) EmptyString.

Definition json_fence_array : string :=
  "[" ++ dquote ++ fence ++ dquote ++ "]".

End Extraction.

(** * The retrying executor (the [@retry] decorator of [complete_chat]) *)

Module Retry.

(** The exceptions an attempt of [complete_chat] can end with, by the class
    the retry predicate tests with [isinstance]; subclasses of
    [TimeoutError] and [ConnectionError] count as their base class. *)
Inductive error :=
| TimeoutError
| ConnectionError
| OtherError (name : string).

Inductive attempt_result :=
| Success (content : string)
| Failure (e : error).

(** The arguments of the decorator. *)
Record policy := mk_policy {
  retryable : error -> bool;      (* [retry=] *)
  multiplier : Z;                 (* [wait_exponential(multiplier=...)] *)
  wait_min : Z;                   (* [min=] *)
  wait_max : Z;                   (* [max=] *)
  exp_base : Z;                   (* [exp_base=], 2 when not given *)
  max_attempt_number : nat        (* [stop_after_attempt(...)] *)
}.

(** [retry_if_exception_type((TimeoutError, ConnectionError))] *)
Definition retry_if_timeout_or_connection (e : error) : bool :=
  match e with
  | TimeoutError | ConnectionError => true
  | OtherError _ => false
  end.

(** Lines 93-96. *)
Definition complete_chat_policy : policy :=
  mk_policy retry_if_timeout_or_connection 1 2 10 2 3.

(** tenacity's [wait_exponential.__call__], seconds to wait after the
    attempt [attempt_number] failed:
    [exp = exp_base ** (attempt_number - 1); result = multiplier * exp;
     return max(max(0, min), min(result, max))]. *)
Definition wait_exponential (p : policy) (attempt_number : nat) : Z :=
  let exp := exp_base p ^ (Z.of_nat attempt_number - 1) in
  let result := multiplier p * exp in
  Z.max (Z.max 0 (wait_min p)) (Z.min result (wait_max p)).

(** [stop_after_attempt.__call__]: [attempt_number >= max_attempt_number]. *)
Definition stop_after_attempt (p : policy) (attempt_number : nat) : bool :=
  (max_attempt_number p <=? attempt_number)%nat.

Inductive event :=
| Attempt (attempt_number : nat)
| Sleep (seconds : Z).

Inductive final :=
| Returned (content : string)   (* the attempt succeeded *)
| Reraised (e : error)          (* not retryable: the exception propagates *)
| RetryError (last : error).    (* retryable, and [stop] said stop *)

(** tenacity's loop around the wrapped coroutine.  [operation n] is how the
    [n]-th attempt ends.  The loop of the library is not bounded by
    construction; [fuel] bounds it here, and [None] means the fuel ran out
    ([retry_loop_total] shows it does not). *)
Fixpoint retry_loop (fuel : nat) (p : policy) (operation : nat -> attempt_result)
    (attempt_number : nat) : list event * option final :=
  match fuel with
  | O => ([], None)
  | S fuel' =>
      match operation attempt_number with
      | Success content => ([Attempt attempt_number], Some (Returned content))
      | Failure e =>
          if retryable p e then
            if stop_after_attempt p attempt_number
            then ([Attempt attempt_number], Some (RetryError e))
            else
              let '(evs, r) := retry_loop fuel' p operation (S attempt_number) in
              (Attempt attempt_number :: Sleep (wait_exponential p attempt_number) :: evs, r)
          else ([Attempt attempt_number], Some (Reraised e))
      end
  end.

(** A call of the decorated [complete_chat]: attempts are numbered from 1. *)
Definition complete_chat (operation : nat -> attempt_result) : list event * option final :=
  retry_loop (max_attempt_number complete_chat_policy) complete_chat_policy operation 1.

(** The attempt numbers and the sleeps of a trace. *)
Definition attempts (evs : list event) : list nat :=
  flat_map (fun e => match e with Attempt n => [n] | Sleep _ => [] end) evs.

Definition sleeps (evs : list event) : list Z :=
  flat_map (fun e => match e with Attempt _ => [] | Sleep d => [d] end) evs.

(** The sleep that precedes the attempt [n] in a trace, if there is one. *)
Fixpoint delay_before (n : nat) (evs : list event) : option Z :=
  match evs with
  | Sleep d :: ((Attempt m :: _) as rest) =>
      if (m =? n)%nat then Some d else delay_before n rest
  | _ :: rest => delay_before n rest
  | [] => None
  end.

(** The delay the specification words give for the wait after the attempt
    [attempt] failed: [min(base_delay * growth^(attempt-1), max_delay)]. *)
Definition spec_delay (base_delay growth max_delay : Z) (attempt : nat) : Z :=
  Z.min (base_delay * growth ^ (Z.of_nat attempt - 1)) max_delay.

(** A trace of [complete_chat] follows the schedule of the decorator. *)
Definition follows_schedule (operation : nat -> attempt_result)
    (evs : list event) : Prop :=
  (* attempts are numbered 1, 2, ... and there is no fourth *)
  (exists k, (1 <= k <= 3)%nat /\ attempts evs = seq 1 k) /\
  (* an attempt after the first follows a failure of a retryable kind *)
  (forall n, In (S (S n)) (attempts evs) ->
     exists e, operation (S n) = Failure e /\
               retry_if_timeout_or_connection e = true) /\
  (* the wait before it is the one [wait_exponential] gives *)
  (forall n, In (S (S n)) (attempts evs) ->
     delay_before (S (S n)) evs = Some (wait_exponential complete_chat_policy (S n))) /\
  (In 2%nat (attempts evs) -> delay_before 2 evs = Some 2) /\
  (In 3%nat (attempts evs) -> delay_before 3 evs = Some 2) /\
  Forall (fun d => 2 <= d <= 10) (sleeps evs).

End Retry.

(** * The VAT field validator ([InvoiceData.validate_italian_vat]) *)

Module Vat.

Local Open Scope string_scope.

(** Line 40: [v.replace(" ", "").replace(".", "")]. *)
Definition cleaned (v : string) : string :=
  PyStr.replace "." "" (PyStr.replace " " "" v).

(** Lines 38-43: the cleaned value, or the message of the [ValueError]. *)
Definition validate_italian_vat (v : string) : string + string :=
  let cleaned := cleaned v in
  if negb (PyStr.isdigit cleaned) || negb (String.length cleaned =? 11)%nat
  then inr ("P.IVA non valida: " ++ v)
  else inl cleaned.

(** The two fields the validator is attached to
    ([@field_validator('supplier_vat', 'client_vat')]). *)
Record vat_fields := mk_vat {
  supplier_vat : string;
  client_vat : string
}.

(** One entry of the error list of pydantic's [ValidationError]: the field
    ([loc]) and the message of the [ValueError] the validator raised. *)
Record field_error := mk_err {
  loc : string;
  msg : string
}.

Definition validate_field (name v : string) : string + field_error :=
  match validate_italian_vat v with
  | inl c => inl c
  | inr m => inr (mk_err name m)
  end.

(** Validation of the two fields as pydantic runs it: every field is
    validated, the errors of all of them are collected in field order, and
    the validated fields hold what the validator returned. *)
Definition validate_vat_fields (x : vat_fields) : vat_fields + list field_error :=
  match validate_field "supplier_vat" (supplier_vat x),
        validate_field "client_vat" (client_vat x) with
  | inl s, inl c => inl (mk_vat s c)
  | inr e1, inl _ => inr [e1]
  | inl _, inr e2 => inr [e2]
  | inr e1, inr e2 => inr [e1; e2]
  end.

(** A text made of exactly eleven digit characters. *)
Definition eleven_digits (s : string) : Prop :=
  String.length s = 11%nat /\ PyStr.all_chars PyStr.isdigit_char s = true.

End Vat.

(** * The batch processor ([DocumentProcessor.batch_process_documents]) *)

Module Batch.

(** How a call ends: it returns a value, it raises [ValueError], or it
    never returns. *)
Inductive outcome (A : Type) :=
| Returns (a : A)
| RaisesValueError (message : string)
| Hangs.
Arguments Returns {A} a.
Arguments RaisesValueError {A} message.
Arguments Hangs {A}.

(** How a call of [extract_invoice_data] ends: with the data, with an
    exception that line 145 catches (an [Exception]; the text is the
    exception's), or not at all, as when the call stays blocked in
    [RateLimiter.acquire]. *)
Inductive extraction (InvoiceData : Type) :=
| Extracted (data : InvoiceData)
| Raised (message : string)
| NeverReturns.
Arguments Extracted {InvoiceData} data.
Arguments Raised {InvoiceData} message.
Arguments NeverReturns {InvoiceData}.

Section Batch.

(** The extracted invoice, and how the calls of the run considered end:
    [extract_invoice_data i doc_text] is the end of the call
    [self.extract_invoice_data(doc_text)] that the task at position [i] of
    the batch makes.  The position is there because the same text can be
    extracted at one call and not at another: the service answers
    differently, or the rate limiter blocks the later call. *)
Context {InvoiceData : Type}.
Variable extract_invoice_data : nat -> string -> extraction InvoiceData.

(** Lines 142-147, the body of the task at position [i] inside the
    semaphore's block: [(doc_id, data)], or [(doc_id, None)] when the
    extraction raised; [None] when the extraction never returns, and
    [process_one] with it. *)
Definition process_one (i : nat) (doc_id doc_text : string)
    : option (string * option InvoiceData) :=
  match extract_invoice_data i doc_text with
  | Extracted data => Some (doc_id, Some data)
  | Raised _ => Some (doc_id, None)
  | NeverReturns => None
  end.

(** Lines 149-150: [asyncio.gather] returns the results in the order of the
    tasks, whatever the order they finish in, once every task has
    returned; [None] when some task never returns.  [gather_from i] is the
    part of the batch that starts at position [i]. *)
Fixpoint gather_from (i : nat) (documents : list (string * string))
    : option (list (string * option InvoiceData)) :=
  match documents with
  | [] => Some []
  | d :: rest =>
      match process_one i (fst d) (snd d), gather_from (S i) rest with
      | Some r, Some rs => Some (r :: rs)
      | _, _ => None
      end
  end.

Definition gather_results (documents : list (string * string))
    : option (list (string * option InvoiceData)) :=
  gather_from 0 documents.

(** Line 152. *)
Definition successful (results : list (string * option InvoiceData))
    : list (string * InvoiceData) :=
  flat_map (fun r => match snd r with
                     | Some data => [(fst r, data)]
                     | None => []
                     end) results.

(** Lines 131-158.  [asyncio.Semaphore(max_concurrent)] raises
    [ValueError] on a negative value; with the value 0 no task can enter
    the semaphore's block, so [gather] never returns unless there is no
    task; otherwise the call returns once every task has, with the
    successes among the gathered results. *)
Definition batch_process_documents (documents : list (string * string))
    (max_concurrent : Z) : outcome (list (string * InvoiceData)) :=
  if max_concurrent <? 0 then
    RaisesValueError "Semaphore initial value must be >= 0"
  else
    match documents with
    | [] => Returns []
    | _ :: _ =>
        if max_concurrent =? 0 then Hangs
        else match gather_results documents with
             | Some results => Returns (successful results)
             | None => Hangs
             end
    end.

(** The item at position [i] is extracted: its call returns data. *)
Definition succeeds (i : nat) (d : string * string) : bool :=
  match extract_invoice_data i (snd d) with
  | Extracted _ => true
  | _ => false
  end.

(** The call for the item at position [i] comes to an end, with data or
    with an exception. *)
Definition ends (i : nat) (d : string * string) : Prop :=
  extract_invoice_data i (snd d) <> NeverReturns.

(** Every call of the batch comes to an end. *)
Definition all_end (documents : list (string * string)) : Prop :=
  forall i d, documents !! i = Some d -> ends i d.

(** Every item of the batch is extracted. *)
Definition all_succeed (documents : list (string * string)) : Prop :=
  forall i d, documents !! i = Some d -> succeeds i d = true.

(** What the item at position [i] adds to the list returned. *)
Definition contribution (i : nat) (d : string * string)
    : list (string * InvoiceData) :=
  match extract_invoice_data i (snd d) with
  | Extracted data => [(fst d, data)]
  | _ => []
  end.

(** The contributions of the items from position [i] on, in order. *)
Fixpoint contributions_from (i : nat) (documents : list (string * string))
    : list (string * InvoiceData) :=
  match documents with
  | [] => []
  | d :: rest => contribution i d ++ contributions_from (S i) rest
  end.

(** The items from position [i] on that are extracted, in order. *)
Fixpoint extracted_from (i : nat) (documents : list (string * string))
    : list (string * string) :=
  match documents with
  | [] => []
  | d :: rest =>
      if succeeds i d then d :: extracted_from (S i) rest
      else extracted_from (S i) rest
  end.

End Batch.

End Batch.

(** * Metrics ([APIMetrics] and [MetricsCollector], monitoring.py) *)

Module Metrics.

(** The dataclass.  Latencies are integers (a fixed time unit), the cost
    and the rates are rationals. *)
Record APIMetrics := mk {
  total_requests : Z;
  successful_requests : Z;
  failed_requests : Z;
  total_tokens : Z;
  total_cost_usd : Q;
  response_times : list Z;
  errors : gmap string Z
}.

(** [APIMetrics()] *)
Definition empty : APIMetrics := mk 0 0 0 0 0%Q [] ∅.

(** Lines 19-23. *)
Definition success_rate (m : APIMetrics) : Q :=
  if total_requests m =? 0 then 0%Q
  else (inject_Z (successful_requests m) / inject_Z (total_requests m))%Q.

(** [sorted(xs)] on numbers: insertion into a sorted list. *)
Fixpoint insert_sorted (x : Z) (l : list Z) : list Z :=
  match l with
  | [] => [x]
  | y :: l' => if x <=? y then x :: l else y :: insert_sorted x l'
  end.

Definition sorted (l : list Z) : list Z := fold_right insert_sorted [] l.

(** [int(n * 0.95)] for a length [n]: the floor of [95 n / 100]. *)
Definition p95_index (n : nat) : nat := Z.to_nat (Z.of_nat n * 95 / 100).

(** Lines 31-37.  [None] is the [IndexError] of [sorted_times[index]]
    ([p95_response_time_defined] shows it does not occur). *)
Definition p95_response_time (m : APIMetrics) : option Z :=
  match response_times m with
  | [] => Some 0
  | _ =>
      let sorted_times := sorted (response_times m) in
      let index := p95_index (List.length sorted_times) in
      nth_error sorted_times index
  end.

(** [self.metrics.errors[error] += 1] on a [defaultdict(int)]. *)
Definition count_error (error : string) (errs : gmap string Z) : gmap string Z :=
  <[error := default 0 (errs !! error) + 1]> errs.

(** Lines 55-69, the body of [record_request] under the lock.  [if error:]
    holds for a string that is not empty. *)
Definition record_request (m : APIMetrics) (success : bool) (tokens_used : Z)
    (response_time : Z) (error : option string) : APIMetrics :=
  let errs :=
    if success then errors m
    else match error with
         | Some e => if String.eqb e "" then errors m else count_error e (errors m)
         | None => errors m
         end in
  mk (total_requests m + 1)
     (if success then successful_requests m + 1 else successful_requests m)
     (if success then failed_requests m else failed_requests m + 1)
     (total_tokens m + tokens_used)
     (total_cost_usd m + (inject_Z tokens_used / 1000) * (3 # 100))%Q
     (response_times m ++ [response_time])
     errs.

(** One call of [record_request]. *)
Record request := mk_request {
  success : bool;
  tokens_used : Z;
  response_time : Z;
  error : option string
}.

(** A sequence of calls on a collector, from [MetricsCollector()]. *)
Definition record_all (calls : list request) : APIMetrics :=
  fold_left (fun m r => record_request m (success r) (tokens_used r)
                          (response_time r) (error r))
            calls empty.

(** The counters agree with each other. *)
Definition consistent (m : APIMetrics) : Prop :=
  total_requests m = successful_requests m + failed_requests m /\
  Z.of_nat (List.length (response_times m)) = total_requests m /\
  0 <= successful_requests m /\ 0 <= failed_requests m.

(** The index the specification words give, [ceil(0.95 * n) - 1]. *)
Definition ceil_index (n : nat) : nat :=
  Z.to_nat ((Z.of_nat n * 95 + 99) / 100 - 1).

(** A collector that has recorded the given latencies and nothing else. *)
Definition with_times (times : list Z) : APIMetrics :=
  mk (Z.of_nat (List.length times)) (Z.of_nat (List.length times)) 0 0 0%Q times ∅.

(** The latencies [100, 200, ..., 1000] and [1, 2, ..., 20]. *)
Definition latencies_100_to_1000 : list Z :=
  List.map (fun i => Z.of_nat i * 100) (seq 1 10).

Definition latencies_1_to_20 : list Z := List.map Z.of_nat (seq 1 20).

End Metrics.

(** * Further notions on the rate limiter's ledger *)

Module Ledger.

Import RateLimiter.

(** The ledger a decision leaves behind. *)
Definition ledger_after (d : decision) : t :=
  match d with
  | Admit s' => s'
  | Wait s' _ => s'
  end.

(** The two lists of the ledger carry the same timestamps, entry by entry. *)
Definition aligned (s : t) : Prop :=
  List.map fst (tokens_used s) = requests s.

(** The timestamps are in the order of the clock and none is later than
    [now]: the first entry is the oldest. *)
Definition chronological (s : t) (now : Z) : Prop :=
  StronglySorted Z.le (requests s) /\ Forall (fun r => r <= now) (requests s).

(** Everything the ledger holds, expired or not, is within the limits, and
    no token amount is negative. *)
Definition within_budget (s : t) : Prop :=
  Z.of_nat (List.length (requests s)) <= max_requests s /\
  sum_tokens (tokens_used s) <= max_tokens s /\
  Forall (fun e => 0 <= snd e) (tokens_used s).

(** The configuration a run of the task machine ends in. *)
Definition final_config (fuel : nat) (c : config) : config :=
  List.last (fst (run fuel c)) c.

End Ledger.

(** * Further notions on the retrying executor *)

Module RetryOutcome.

Import Retry.

(** The attempt [n] ends in an exception of a kind [complete_chat] retries. *)
Definition fails_retryably (operation : nat -> attempt_result) (n : nat) : Prop :=
  exists e, operation n = Failure e /\ retry_if_timeout_or_connection e = true.

(** Every attempt before the attempt [k] fails that way. *)
Definition retried_until (operation : nat -> attempt_result) (k : nat) : Prop :=
  forall j, (1 <= j < k)%nat -> fails_retryably operation j.

End RetryOutcome.

(** * The batch under its semaphore

    [batch_process_documents] runs one task per document, each of them
    inside [async with semaphore], and gathers their results in the order
    of the documents.  A state holds the counter of the
    [asyncio.Semaphore] and where each task is; a step lets one task into
    the block, which takes one unit of the counter and needs it positive, or
    out of it, which gives the unit back.  A task leaves the block when
    its extraction has returned or raised; a task whose extraction never
    returns stays inside.  The order in which the event loop lets the tasks
    move is left open. *)

Module BatchSchedule.

Section BatchSchedule.

Context {InvoiceData : Type}.
Variable extract_invoice_data : nat -> string -> Batch.extraction InvoiceData.

Inductive status :=
| Pending                                      (* at [async with semaphore] *)
| Running                                      (* inside the block *)
| Finished (r : string * option InvoiceData).  (* [process_one] returned [r] *)

Record state := mk_state {
  value : Z;
  tasks : list status
}.

(** [asyncio.Semaphore(max_concurrent)] raises [ValueError] on a negative
    value ([None]); otherwise every task starts at the semaphore. *)
Definition start (documents : list (string * string)) (max_concurrent : Z)
    : option state :=
  if max_concurrent <? 0 then None
  else Some (mk_state max_concurrent (List.map (fun _ => Pending) documents)).

Inductive step (documents : list (string * string)) : state -> state -> Prop :=
| step_enter (st : state) (i : nat) :
    tasks st !! i = Some Pending ->
    0 < value st ->
    step documents st (mk_state (value st - 1) (<[i := Running]> (tasks st)))
| step_leave (st : state) (i : nat) (d : string * string)
    (r : string * option InvoiceData) :
    tasks st !! i = Some Running ->
    documents !! i = Some d ->
    Batch.process_one extract_invoice_data i (fst d) (snd d) = Some r ->
    step documents st (mk_state (value st + 1) (<[i := Finished r]> (tasks st))).

Definition is_pending (s : status) : bool :=
  match s with Pending => true | _ => false end.

Definition is_running (s : status) : bool :=
  match s with Running => true | _ => false end.

Definition is_finished (s : status) : bool :=
  match s with Finished _ => true | _ => false end.

Definition count (f : status -> bool) (l : list status) : nat :=
  List.length (List.filter f l).

(** The tasks inside the block, and those still at the semaphore. *)
Definition running (st : state) : nat := count is_running (tasks st).

Definition pending (st : state) : nat := count is_pending (tasks st).

Definition all_finished (st : state) : Prop :=
  Forall (fun s => is_finished s = true) (tasks st).

(** What [asyncio.gather] returns once every task has finished. *)
Definition results (st : state) : list (string * option InvoiceData) :=
  flat_map (fun s => match s with Finished r => [r] | _ => [] end) (tasks st).

(** The moves the tasks still have to make. *)
Definition work_left (st : state) : nat := 2 * pending st + running st.

(** A finished task holds the result of [process_one] on its document. *)
Definition holds_result (i : nat) (d : string * string) (s : status) : Prop :=
  match s with
  | Finished r =>
      Batch.process_one extract_invoice_data i (fst d) (snd d) = Some r
  | _ => True
  end.

(** What every state of a batch satisfies. *)
Definition schedule_invariant (documents : list (string * string))
    (max_concurrent : Z) (st : state) : Prop :=
  value st = max_concurrent - Z.of_nat (running st) /\
  0 <= value st /\
  List.length (tasks st) = List.length documents /\
  (forall i d s,
     documents !! i = Some d -> tasks st !! i = Some s -> holds_result i d s).

End BatchSchedule.

Arguments Pending {InvoiceData}.
Arguments Running {InvoiceData}.

End BatchSchedule.

(** * Further notions on the metrics *)

Module MetricsLog.

Import Metrics.

(** The call failed and named the error [e]. *)
Definition failed_with (e : string) (r : request) : bool :=
  negb (success r)
  && match error r with
     | Some e' => String.eqb e' e
     | None => false
     end.

(** How many samples are at most, and at least, a value. *)
Definition at_most (v : Z) (l : list Z) : nat :=
  List.length (List.filter (fun x => x <=? v) l).

Definition at_least (v : Z) (l : list Z) : nat :=
  List.length (List.filter (fun x => v <=? x) l).

End MetricsLog.

(** * The token estimate of [complete_chat] (lines 110-112) *)

Module TokenEstimate.

Local Open Scope string_scope.

(** The text starts with a character that is not white space. *)
Definition starts_word (s : string) : bool :=
  match s with
  | EmptyString => false
  | String c _ => negb (PyStr.isspace c)
  end.

(** [s.split()]: the maximal runs of characters that are not white space,
    left to right. *)
Fixpoint words (s : string) : list string :=
  match s with
  | EmptyString => []
  | String c s' =>
      if PyStr.isspace c then words s'
      else if starts_word s' then
        match words s' with
        | w :: ws => String c w :: ws
        | [] => [String c EmptyString]
        end
      else String c EmptyString :: words s'
  end.

(** [int(len(system_prompt.split()) + len(user_message.split()) * 1.3)]:
    the second term is the floor of [13 b / 10]. *)
Definition estimated_tokens (system_prompt user_message : string) : Z :=
  Z.of_nat (List.length (words system_prompt))
  + 13 * Z.of_nat (List.length (words user_message)) / 10.

(** The text without its white space. *)
Fixpoint without_spaces (s : string) : string :=
  match s with
  | EmptyString => EmptyString
  | String c s' =>
      if PyStr.isspace c then without_spaces s' else String c (without_spaces s')
  end.

(** The words put together again. *)
Fixpoint concat_words (ws : list string) : string :=
  match ws with
  | [] => ""
  | w :: ws' => w ++ concat_words ws'
  end.

(** The calls of [acquire] that calls of [complete_chat] make, each given
    by the clock reading and the two prompts. *)
Definition acquire_of_chat (c : Z * string * string) : Z * Z :=
  match c with
  | (now, system_prompt, user_message) =>
      (now, estimated_tokens system_prompt user_message)
  end.

End TokenEstimate.

(** * The prompt optimizer ([PromptOptimizer], prompt_optimizer.py) *)

Module PromptOptimizer.

Local Open Scope string_scope.

Section PromptOptimizer.

(** The four texts of the table in [_get_field_enhancements], in the order
    of its keys; they hold characters outside the range of [ascii] and are
    taken as given. *)
Variables invoice_number_text date_text vat_number_text total_amount_text : string.

(** The dictionary literal of lines 43-69. *)
Definition enhancements : gmap string string :=
  <["invoice_number" := invoice_number_text]>
    (<["date" := date_text]>
       (<["vat_number" := vat_number_text]>
          (<["total_amount" := total_amount_text]> ∅))).

(** Line 71: [enhancements.get(field_name, "Verifica ...")]. *)
Definition _get_field_enhancements (field_name : string) : string :=
  default "Verifica attentamente questo campo." (enhancements !! field_name).

(** What line 29 puts between the base prompt and the advice. *)
Definition attention_header (field_name : string) : string :=
  String "010" (String "010" ("ATTENZIONE SPECIALE al campo '" ++ field_name
                              ++ "':" ++ String "010" "")).

(** Lines 13-38, on the dictionary [self.success_metrics]: the prompt
    returned and the dictionary after the call.  Rates are rationals. *)
Definition optimize_extraction_prompt (success_metrics : gmap string (list Q))
    (base_prompt field_name : string) (success_rate : Q)
    : string * gmap string (list Q) :=
  let history := default [] (success_metrics !! field_name) in
  let success_metrics :=
    <[field_name := (history ++ [success_rate])%list]> success_metrics in
  if negb (Qle_bool (8 # 10)%Q success_rate) then
    (base_prompt ++ attention_header field_name
       ++ _get_field_enhancements field_name,
     success_metrics)
  else (base_prompt, success_metrics).

(** One call: the base prompt, the field and the rate. *)
Record call := mk_call {
  base_prompt : string;
  field_name : string;
  success_rate : Q
}.

(** The dictionary after a sequence of calls on a new optimizer. *)
Definition optimize_all (calls : list call) : gmap string (list Q) :=
  fold_left (fun sm c => snd (optimize_extraction_prompt sm (base_prompt c)
                                (field_name c) (success_rate c)))
            calls ∅.

(** The rates the calls gave for a field, in call order. *)
Definition rates_of (f : string) (calls : list call) : list Q :=
  List.map success_rate (List.filter (fun c => String.eqb (field_name c) f) calls).

End PromptOptimizer.

End PromptOptimizer.

(** * The phone and VAT substitutions of [sanitize_pii] (security.py)

    [re.sub(r'\b\d{lo,hi}\b', repl, text)]: a match starts and ends at a
    word boundary and holds digits only, so it is a maximal run of word
    characters that consists of [lo] to [hi] decimal digits; every such
    run is replaced by [repl]. *)

Module Sanitize.

Local Open Scope string_scope.

(** [\d] on the code points below 256. *)
Definition is_decimal (c : ascii) : bool :=
  let n := nat_of_ascii c in ((48 <=? n) && (n <=? 57))%nat.

(** [\w] on the code points below 256: what [str.isalnum] accepts, and the
    underscore. *)
Definition is_word (c : ascii) : bool :=
  let n := nat_of_ascii c in
  ((48 <=? n) && (n <=? 57) || (65 <=? n) && (n <=? 90) || (n =? 95)
   || (97 <=? n) && (n <=? 122)
   || (n =? 170) || (n =? 178) || (n =? 179) || (n =? 181) || (n =? 185)
   || (n =? 186) || (188 <=? n) && (n <=? 190)
   || (192 <=? n) && (n <=? 214) || (216 <=? n) && (n <=? 246)
   || (248 <=? n) && (n <=? 255))%nat.

(** The run [w] is [lo] to [hi] digits. *)
Definition digit_word (lo hi : nat) (w : string) : bool :=
  PyStr.all_chars is_decimal w
  && (lo <=? String.length w)%nat && (String.length w <=? hi)%nat.

(** What a run of word characters becomes. *)
Definition flush (lo hi : nat) (repl w : string) : string :=
  if digit_word lo hi w then repl else w.

(** The substitution, reading [s] with the run [cur] of word characters
    read so far. *)
Fixpoint sub_words (lo hi : nat) (repl cur s : string) : string :=
  match s with
  | EmptyString => flush lo hi repl cur
  | String c s' =>
      if is_word c then sub_words lo hi repl (cur ++ String c EmptyString) s'
      else flush lo hi repl cur ++ String c (sub_words lo hi repl EmptyString s')
  end.

(** Line 37: [re.sub(r'\b\d{10,11}\b', '[PHONE]', text)]. *)
Definition sub_phone (text : string) : string :=
  sub_words 10 11 "[PHONE]" "" text.

(** Line 40: [re.sub(r'\b\d{11}\b', '[VAT]', text)]. *)
Definition sub_vat (text : string) : string :=
  sub_words 11 11 "[VAT]" "" text.

End Sanitize.

(** * Properties *)

(** ** Sums *)

Lemma fold_left_add_shift (xs : list Z) (a : Z) :
  fold_left Z.add xs a = a + fold_left Z.add xs 0.
Proof.
  revert a; induction xs as [|x xs IH]; intros a; simpl.
  - lia.
  - rewrite (IH (a + x)), (IH (0 + x)). lia.
Qed.

Lemma py_sum_app (xs ys : list Z) : py_sum (xs ++ ys) = py_sum xs + py_sum ys.
Proof.
  unfold py_sum. rewrite fold_left_app.
  apply fold_left_add_shift.
Qed.

(** ** The rate limiter *)

Section RateLimiterFacts.

Import RateLimiter.

Lemma prune_requests_idem (c : Z) (rs : list Z) :
  prune_requests c (prune_requests c rs) = prune_requests c rs.
Proof.
  unfold prune_requests. induction rs as [|r rs IH]; simpl; [reflexivity|].
  destruct (c <? r) eqn:E; simpl; rewrite ?E, IH; reflexivity.
Qed.


Lemma prune_requests_length (c : Z) (rs : list Z) :
  (List.length (prune_requests c rs) <= List.length rs)%nat.
Proof.
  unfold prune_requests. induction rs as [|r rs IH]; simpl; [lia|].
  destruct (c <? r); simpl; lia.
Qed.

Lemma prune_requests_kept (c : Z) (rs : list Z) :
  Forall (fun r => c < r) (prune_requests c rs).
Proof.
  unfold prune_requests. apply List.Forall_forall. intros r Hr.
  apply List.filter_In in Hr. destruct Hr as [_ Hr]. lia.
Qed.

Lemma prune_tokens_kept (c : Z) (ts : list (Z * Z)) :
  Forall (fun e => c < fst e) (prune_tokens c ts).
Proof.
  unfold prune_tokens. apply List.Forall_forall. intros e He.
  apply List.filter_In in He. destruct He as [_ He]. lia.
Qed.

Lemma sum_tokens_app (xs ys : list (Z * Z)) :
  sum_tokens (xs ++ ys) = sum_tokens xs + sum_tokens ys.
Proof. unfold sum_tokens. rewrite List.map_app. apply py_sum_app. Qed.

(** The two outcomes of the critical section, read off the pruned ledger. *)
Lemma acquire_body_admit (s : t) (now est : Z) (s' : t) :
  acquire_body s now est = Admit s' <->
  Z.of_nat (List.length (requests_in_window s now)) < max_requests s /\
  tokens_in_window s now + est <= max_tokens s /\
  s' = mk (max_requests s) (max_tokens s) (window_seconds s)
          (requests_in_window s now ++ [now])
          (prune_tokens (cutoff s now) (tokens_used s) ++ [(now, est)]).
Proof.
  unfold acquire_body, requests_in_window, tokens_in_window.
  destruct (max_requests s <=? _) eqn:E1; simpl.
  - split; [discriminate|]. intros [H _]. lia.
  - destruct (max_tokens s <? _) eqn:E2.
    + split; [discriminate|]. intros (_ & H & _). lia.
    + split.
      * intros H. injection H as <-. repeat split; lia.
      * intros (_ & _ & ->). reflexivity.
Qed.

Lemma acquire_body_wait (s : t) (now est : Z) (s' : t) (w : Z) :
  acquire_body s now est = Wait s' w ->
  (max_requests s <= Z.of_nat (List.length (requests_in_window s now))
   \/ max_tokens s < tokens_in_window s now + est) /\
  s' = mk (max_requests s) (max_tokens s) (window_seconds s)
          (requests_in_window s now)
          (prune_tokens (cutoff s now) (tokens_used s)) /\
  0 < w.
Proof.
  unfold acquire_body, requests_in_window, tokens_in_window.
  pose proof (prune_requests_kept (cutoff s now) (requests s)) as K.
  destruct (max_requests s <=? _) eqn:E1; simpl.
  - intros H. injection H as <- <-. repeat split; [left; lia|].
    destruct (prune_requests _ _) as [|r0 rest]; [reflexivity|].
    inversion K; subst. lia.
  - destruct (max_tokens s <? _) eqn:E2; [|discriminate].
    intros H. injection H as <- <-. repeat split; [right; lia|].
    destruct (prune_requests _ _) as [|r0 rest]; [reflexivity|].
    inversion K; subst. lia.
Qed.


(** A run: with room for two requests in the window, the first two calls
    are admitted and the third, one second later, has to wait 58 seconds,
    until the oldest request leaves the window. *)
Example acquire_calls_three :
  List.map (fun c => snd c) (acquire_calls (init 2 1000 60)
                               [(0, 400); (1000000, 400); (2000000, 100)])
  = [ Admit (mk 2 1000 60 [0] [(0, 400)]);
      Admit (mk 2 1000 60 [0; 1000000] [(0, 400); (1000000, 400)]);
      Wait (mk 2 1000 60 [0; 1000000] [(0, 400); (1000000, 400)]) 58000000 ].
Proof. reflexivity. Qed.

(** An entry leaves the ledger once the window has passed over it. *)
Example acquire_prunes_expired :
  acquire_body (mk 1 1000 60 [0] [(0, 400)]) 60000000 400
  = Admit (mk 1 1000 60 [60000000] [(60000000, 400)]).
Proof. reflexivity. Qed.


(** A call that takes the waiting branch sleeps inside the [async with]
    block, and the inner call it then makes waits for the lock its own
    caller holds: the task goes through exactly three configurations and
    stays blocked, however long it is run. *)
Lemma acquire_wait_deadlocks (s : t) (now est : Z) (s' : t) (w : Z) (fuel : nat) :
  acquire_body s now est = Wait s' w ->
  run (4 + fuel) (call s now est) =
    ([ mkc true s now [Body est];
       mkc true s' now [Sleeping est w];
       mkc true s' (now + w) [EnterLock est; AwaitInner] ],
     Blocked).
Proof.
  intros H. unfold call.
  change (4 + fuel)%nat with (S (S (S (S fuel)))).
  cbn [run step stack locked limiter clock]. rewrite H.
  reflexivity.
Qed.

(** An admitted call releases the lock and returns. *)
Lemma acquire_admit_returns (s : t) (now est : Z) (s' : t) (fuel : nat) :
  acquire_body s now est = Admit s' ->
  run (4 + fuel) (call s now est) =
    ([ mkc true s now [Body est];
       mkc true s' now [ExitLock];
       mkc false s' now [] ],
     Returned).
Proof.
  intros H. unfold call.
  change (4 + fuel)%nat with (S (S (S (S fuel)))).
  cbn [run step stack locked limiter clock]. rewrite H.
  reflexivity.
Qed.

(** C2, the code at [RateLimiter(max_requests=1, max_tokens=90000)] with
    one request admitted at time 0, on a second [acquire(1000)] one second
    later: the call sleeps 59 seconds with the lock held, then calls
    [acquire] again inside the critical section; that inner call waits for
    the lock forever, so the wait is neither outside the lock nor a loop
    that takes the lock again after waking. *)
Theorem acquire_sleeps_holding_lock :
  let s0 := init 1 90000 60 in
  let s1 := mk 1 90000 60 [0] [(0, 1000)] in
  acquire_body s0 0 1000 = Admit s1 /\
  forall fuel,
    run (4 + fuel) (call s1 1000000 1000) =
      ([ mkc true s1 1000000 [Body 1000];
         mkc true s1 1000000 [Sleeping 1000 59000000];
         mkc true s1 60000000 [EnterLock 1000; AwaitInner] ],
       Blocked) /\
    sleeps_holding_lock (mkc true s1 1000000 [Sleeping 1000 59000000]).
Proof.
  cbv zeta. split; [reflexivity|]. intros fuel. split.
  - apply (acquire_wait_deadlocks (mk 1 90000 60 [0] [(0, 1000)]) 1000000 1000
             (mk 1 90000 60 [0] [(0, 1000)]) 59000000 fuel).
    reflexivity.
  - split; [reflexivity|]. exists 1000, 59000000, []. reflexivity.
Qed.

End RateLimiterFacts.

(** ** The retrying executor *)

Section RetryFacts.

Import Retry.

(** The wait never leaves the interval the decorator configures. *)
Lemma wait_exponential_bounds (n : nat) :
  2 <= wait_exponential complete_chat_policy n <= 10.
Proof. unfold wait_exponential; simpl. lia. Qed.

(** The waits of [complete_chat], attempt by attempt: the floor [min=2]
    holds the first two at 2 seconds, then 4, 8 and the cap. *)
Lemma wait_exponential_values :
  List.map (wait_exponential complete_chat_policy) [1; 2; 3; 4; 5; 6]%nat
  = [2; 2; 4; 8; 10; 10].
Proof. reflexivity. Qed.

(** The loop stops within [max_attempt_number] rounds: with that much fuel
    the result is never [None]. *)
Lemma retry_loop_total (p : policy) (operation : nat -> attempt_result)
    (fuel n : nat) :
  (max_attempt_number p < n + fuel)%nat -> (0 < fuel)%nat ->
  exists f, snd (retry_loop fuel p operation n) = Some f.
Proof.
  revert n. induction fuel as [|fuel IH]; intros n Hlt Hpos; [lia|].
  simpl. destruct (operation n) as [c|e]; [eexists; reflexivity|].
  destruct (retryable p e); [|eexists; reflexivity].
  unfold stop_after_attempt.
  destruct (max_attempt_number p <=? n)%nat eqn:E; [eexists; reflexivity|].
  apply Nat.leb_gt in E.
  destruct (IH (S n)) as [f Hf]; [lia|lia|].
  destruct (retry_loop fuel p operation (S n)) as [evs r]. simpl in *.
  exists f. exact Hf.
Qed.

(** The three shapes a trace of [complete_chat] can have. *)
Lemma complete_chat_traces (operation : nat -> attempt_result) :
  fst (complete_chat operation) = [Attempt 1]
  \/ (fst (complete_chat operation) = [Attempt 1; Sleep 2; Attempt 2]
      /\ exists e1, operation 1%nat = Failure e1
                    /\ retry_if_timeout_or_connection e1 = true)
  \/ (fst (complete_chat operation)
        = [Attempt 1; Sleep 2; Attempt 2; Sleep 2; Attempt 3]
      /\ exists e1 e2,
           operation 1%nat = Failure e1
           /\ retry_if_timeout_or_connection e1 = true
           /\ operation 2%nat = Failure e2
           /\ retry_if_timeout_or_connection e2 = true).
Proof.
  unfold complete_chat. simpl.
  destruct (operation 1%nat) as [c1|e1] eqn:E1; [left; reflexivity|].
  destruct (retry_if_timeout_or_connection e1) eqn:R1; [|left; reflexivity].
  right.
  destruct (operation 2%nat) as [c2|e2] eqn:E2.
  { left. split; [reflexivity|]. exists e1. split; [reflexivity|assumption]. }
  destruct (retry_if_timeout_or_connection e2) eqn:R2.
  2:{ left. split; [reflexivity|]. exists e1. split; [reflexivity|assumption]. }
  right. split.
  - destruct (operation 3%nat) as [c3|e3]; [reflexivity|].
    destruct (retry_if_timeout_or_connection e3); reflexivity.
  - exists e1, e2. repeat split; assumption.
Qed.

(** C5 (amended).  Whatever the attempts do, a call of [complete_chat]
    ends, makes the attempts 1, 2, ... and never a fourth, retries only
    after a [TimeoutError] or a [ConnectionError], and before each retry
    waits [max(2, min(2^(attempt-1), 10))] seconds: 2 before attempt 2 and
    2 before attempt 3, never more than 10. *)
Theorem complete_chat_schedule (operation : nat -> attempt_result) :
  (exists f, snd (complete_chat operation) = Some f) /\
  follows_schedule operation (fst (complete_chat operation)).
Proof.
  split.
  - apply retry_loop_total; simpl; lia.
  - destruct (complete_chat_traces operation)
      as [-> | [[-> (e1 & E1 & R1)] | [-> (e1 & e2 & E1 & R1 & E2 & R2)]]];
      unfold follows_schedule; simpl.
    + repeat split.
      * exists 1%nat. split; [lia|reflexivity].
      * intros n [H|[]]. discriminate H.
      * intros n [H|[]]. discriminate H.
      * intros [H|[]]. discriminate H.
      * intros [H|[]]. discriminate H.
      * constructor.
    + repeat split.
      * exists 2%nat. split; [lia|reflexivity].
      * intros n [H|[H|[]]]; [discriminate H|].
        injection H as <-. exists e1. split; assumption.
      * intros n [H|[H|[]]]; [discriminate H|].
        injection H as <-. reflexivity.
      * intros [H|[H|[]]]; discriminate H.
      * repeat constructor; lia.
    + repeat split.
      * exists 3%nat. split; [lia|reflexivity].
      * intros n [H|[H|[H|[]]]]; [discriminate H| |].
        -- injection H as <-. exists e1. split; assumption.
        -- injection H as <-. exists e2. split; assumption.
      * intros n [H|[H|[H|[]]]]; [discriminate H| |];
          injection H as <-; reflexivity.
      * repeat constructor; lia.
Qed.

(** C5, counterexample.  When every attempt times out, the wait before
    attempt 3 is 2 seconds, not the 4 seconds of
    [min(base_delay * growth^(attempt-1), max_delay)] at base delay 2,
    growth 2 and cap 10. *)
Lemma complete_chat_second_delay_is_not_4 :
  fst (complete_chat (fun _ => Failure TimeoutError))
  = [Attempt 1; Sleep 2; Attempt 2; Sleep 2; Attempt 3] /\
  delay_before 3 (fst (complete_chat (fun _ => Failure TimeoutError))) = Some 2 /\
  spec_delay 2 2 10 2 = 4 /\
  delay_before 3 (fst (complete_chat (fun _ => Failure TimeoutError)))
  <> Some (spec_delay 2 2 10 2).
Proof. repeat split. discriminate. Qed.

End RetryFacts.

(** ** Strings *)

Section PyStrFacts.

Import PyStr.
Local Open Scope string_scope.

Lemma append_assoc (a b c : string) : (a ++ b) ++ c = a ++ (b ++ c).
Proof. induction a as [|x a IH]; simpl; [reflexivity|]. rewrite IH. reflexivity. Qed.

Lemma append_nil_r (a : string) : a ++ "" = a.
Proof. induction a as [|x a IH]; simpl; [reflexivity|]. rewrite IH. reflexivity. Qed.

Lemma prefix_cons (a b : ascii) (p s : string) :
  String.prefix (String a p) (String b s) = Ascii.eqb a b && String.prefix p s.
Proof.
  simpl. destruct (ascii_dec a b) as [->|N].
  - rewrite Ascii.eqb_refl. reflexivity.
  - apply Ascii.eqb_neq in N. rewrite N. reflexivity.
Qed.

Lemma prefix_nil (s : string) : String.prefix "" s = true.
Proof. destruct s; reflexivity. Qed.

(** [rstrip] leaves a text alone when it ends in a text it leaves alone. *)
Lemma rstrip_app_fixed (s t : string) :
  rstrip t = t -> t <> "" -> rstrip (s ++ t) = s ++ t.
Proof.
  intros Ht Hne. induction s as [|a s IH]; simpl; [exact Ht|].
  rewrite IH. destruct (s ++ t) eqn:E; [|reflexivity].
  destruct s; simpl in E; [contradiction|discriminate].
Qed.

Lemma rstrip_app_space (s : string) (c : ascii) :
  isspace c = true -> rstrip (s ++ String c "") = rstrip s.
Proof.
  intros Hc. induction s as [|a s IH]; simpl.
  - rewrite Hc. reflexivity.
  - rewrite IH. reflexivity.
Qed.

Lemma lstrip_app_space (s : string) (c : ascii) :
  isspace c = true ->
  lstrip (s ++ String c "") = lstrip s
  \/ lstrip (s ++ String c "") = lstrip s ++ String c "".
Proof.
  intros Hc. induction s as [|a s IH]; simpl.
  - rewrite Hc. left. reflexivity.
  - destruct (isspace a); [exact IH|]. right. reflexivity.
Qed.

(** White space around a text is invisible to [strip]. *)
Lemma strip_app_space (s : string) (c : ascii) :
  isspace c = true -> strip (s ++ String c "") = strip s.
Proof.
  intros Hc. unfold strip.
  destruct (lstrip_app_space s c Hc) as [-> | ->]; [reflexivity|].
  apply rstrip_app_space, Hc.
Qed.

Lemma strip_cons_space (s : string) (c : ascii) :
  isspace c = true -> strip (String c s) = strip s.
Proof. intros Hc. unfold strip. simpl. rewrite Hc. reflexivity. Qed.

(** What [rstrip] keeps is a prefix of the text. *)
Lemma prefix_rstrip (p t : string) :
  String.prefix p (rstrip t) = true -> String.prefix p t = true.
Proof.
  revert p. induction t as [|a t IH]; intros p; simpl rstrip; [trivial|].
  destruct p as [|b p]; [intros _; reflexivity|].
  destruct (rstrip t) as [|r0 r] eqn:E.
  - destruct (isspace a); [discriminate|].
    rewrite !prefix_cons. intros H. apply andb_true_iff in H. destruct H as [H1 H2].
    rewrite H1. simpl. destruct p; [apply prefix_nil|discriminate].
  - rewrite !prefix_cons. intros H. apply andb_true_iff in H. destruct H as [H1 H2].
    rewrite H1. simpl. apply IH. exact H2.
Qed.

Lemma contains_cons (sep : string) (a : ascii) (t : string) :
  contains sep (String a t) = String.prefix sep (String a t) || contains sep t.
Proof. reflexivity. Qed.

Lemma lstrip_cons (a : ascii) (t : string) :
  lstrip (String a t) = if isspace a then lstrip t else String a t.
Proof. reflexivity. Qed.

(** What [lstrip] keeps is a suffix of the text. *)
Lemma prefix_lstrip_contains (sep t : string) :
  sep <> "" ->
  String.prefix sep (lstrip t) = true -> contains sep t = true.
Proof.
  intros Hne. induction t as [|a t IH].
  - destruct sep; [contradiction|discriminate].
  - rewrite lstrip_cons, contains_cons. destruct (isspace a).
    + intros H. rewrite (IH H). apply orb_true_r.
    + intros H. rewrite H. reflexivity.
Qed.

Lemma prefix_strip_contains (sep t : string) :
  sep <> "" ->
  String.prefix sep (strip t) = true -> contains sep t = true.
Proof.
  intros Hne H. apply prefix_lstrip_contains; [exact Hne|].
  apply prefix_rstrip. exact H.
Qed.

End PyStrFacts.

Section StripFacts.

Import PyStr.
Local Open Scope string_scope.

Lemma rstrip_idem (s : string) : rstrip (rstrip s) = rstrip s.
Proof.
  induction s as [|a s IH]; simpl; [reflexivity|].
  destruct (rstrip s) as [|r0 r] eqn:E.
  - destruct (isspace a) eqn:Ha; simpl; [reflexivity|]. rewrite Ha. reflexivity.
  - change (rstrip (String a (String r0 r))) with
      (match rstrip (String r0 r) with
       | "" => if isspace a then "" else String a ""
       | r' => String a r'
       end).
    rewrite IH. reflexivity.
Qed.

(** What [lstrip] returns is empty or starts with a character that is not
    white space; [rstrip] keeps such a first character. *)
Lemma lstrip_head (s : string) :
  match lstrip s with
  | "" => True
  | String a _ => isspace a = false
  end.
Proof.
  induction s as [|a s IH]; simpl; [exact I|].
  destruct (isspace a) eqn:Ha; [exact IH|exact Ha].
Qed.

Lemma rstrip_head (a : ascii) (t : string) :
  isspace a = false -> exists r, rstrip (String a t) = String a r.
Proof.
  intros Ha. simpl. destruct (rstrip t) as [|r0 r].
  - rewrite Ha. eexists; reflexivity.
  - eexists; reflexivity.
Qed.

Lemma lstrip_strip (s : string) : lstrip (strip s) = strip s.
Proof.
  unfold strip. pose proof (lstrip_head s) as H.
  destruct (lstrip s) as [|a t]; [reflexivity|].
  destruct (rstrip_head a t H) as [r ->]. simpl. rewrite H. reflexivity.
Qed.

(** [strip] is idempotent. *)
Lemma strip_idem (s : string) : strip (strip s) = strip s.
Proof.
  unfold strip at 1. rewrite lstrip_strip. unfold strip. apply rstrip_idem.
Qed.

End StripFacts.

(** ** The response cleanup *)

Section CleanupFacts.

Import PyStr Extraction.
Local Open Scope string_scope.

Lemma split_go_cons0 (sep : string) (c : ascii) (s : string) :
  split_go sep 0 (String c s) =
  if String.prefix sep (String c s)
  then ("", let '(p, ps) := split_go sep (String.length sep - 1) s in p :: ps)
  else let '(p, ps) := split_go sep 0 s in (String c p, ps).
Proof. reflexivity. Qed.

Lemma startswith_fence_app (r : string) : startswith (fence ++ r) fence = true.
Proof.
  unfold startswith, fence. simpl append.
  rewrite !prefix_cons, prefix_nil. reflexivity.
Qed.

(** A text that starts with the marker splits into an empty first piece and
    the pieces of what follows the marker. *)
Lemma split_fence_app (r : string) : split fence (fence ++ r) = "" :: split fence r.
Proof.
  unfold split, fence. simpl append. rewrite split_go_cons0.
  rewrite !prefix_cons, prefix_nil. simpl.
  destruct (split_go "```" 0 r) as [p ps]. reflexivity.
Qed.

Lemma startswith_fence_inv (s : string) :
  startswith s fence = true -> exists r, s = fence ++ r.
Proof.
  unfold startswith, fence. intros H.
  destruct s as [|a [|b [|c r]]]; try discriminate H.
  - rewrite prefix_cons in H. apply andb_true_iff in H. destruct H as [_ H].
    discriminate H.
  - rewrite !prefix_cons in H.
    apply andb_true_iff in H. destruct H as [_ H].
    apply andb_true_iff in H. destruct H as [_ H]. discriminate H.
  - rewrite !prefix_cons in H.
    apply andb_true_iff in H. destruct H as [Ha H].
    apply andb_true_iff in H. destruct H as [Hb H].
    apply andb_true_iff in H. destruct H as [Hc _].
    apply Ascii.eqb_eq in Ha, Hb, Hc. subst. exists r. reflexivity.
Qed.

(** [split(fence)[1]] exists for a text that starts with the marker: the
    index never fails where [cleanup] uses it. *)
Lemma split_fence_second_piece (s : string) :
  startswith s fence = true ->
  exists piece rest, split fence s = "" :: piece :: rest.
Proof.
  intros H. destruct (startswith_fence_inv s H) as [r ->].
  rewrite split_fence_app. unfold split.
  destruct (split_go fence 0 r) as [p ps]. exists p, ps. reflexivity.
Qed.

Lemma prefix_fence_app_newline (u t : string) :
  String.prefix fence u = false ->
  String.prefix fence (u ++ String "010" t) = false.
Proof.
  unfold fence. intros H.
  destruct u as [|a [|b [|c u]]]; simpl append; rewrite ?prefix_cons in *.
  - reflexivity.
  - simpl. apply andb_false_r.
  - simpl. rewrite !andb_false_r. reflexivity.
  - rewrite prefix_nil in *. exact H.
Qed.

(** The content, free of the marker and followed by the closing line, is
    the piece before the closing marker. *)
Lemma split_go_content (content : string) :
  contains fence content = false ->
  split_go fence 0 (content ++ String "010" fence)
  = (content ++ String "010" "", [""]).
Proof.
  induction content as [|a u IH]; intros H.
  - reflexivity.
  - rewrite contains_cons in H. apply orb_false_iff in H. destruct H as [H1 H2].
    simpl append. rewrite split_go_cons0.
    change (String a (u ++ String "010" fence))
      with (String a u ++ String "010" fence).
    rewrite (prefix_fence_app_newline (String a u) fence H1).
    rewrite (IH H2). reflexivity.
Qed.

(** A character that is not a backtick does not start a marker. *)
Lemma split_go_other_head (c : ascii) (s : string) :
  Ascii.eqb "`" c = false ->
  split_go fence 0 (String c s)
  = let '(p, ps) := split_go fence 0 s in (String c p, ps).
Proof.
  intros H. rewrite split_go_cons0. unfold fence at 1.
  rewrite prefix_cons, H. reflexivity.
Qed.

Lemma strip_fenced (tag content : string) :
  strip (fenced tag content) = fenced tag content.
Proof.
  unfold strip, fenced.
  replace (lstrip (fence ++ tag ++ String "010" (content ++ String "010" fence)))
    with (fence ++ tag ++ String "010" (content ++ String "010" fence))
    by reflexivity.
  replace (fence ++ tag ++ String "010" (content ++ String "010" fence))
    with ((fence ++ tag ++ String "010" (content ++ String "010" "")) ++ fence).
  - apply rstrip_app_fixed; [reflexivity|discriminate].
  - rewrite !append_assoc. simpl. rewrite !append_assoc. reflexivity.
Qed.

Lemma strip_between_newlines (content : string) :
  strip (String "010" (content ++ String "010" "")) = strip content.
Proof.
  rewrite strip_cons_space by reflexivity.
  apply strip_app_space. reflexivity.
Qed.

(** Without a marker in it, a text is only stripped. *)
Lemma cleanup_plain (content : string) :
  contains fence content = false -> cleanup content = strip content.
Proof.
  intros H. unfold cleanup.
  destruct (startswith (strip content) fence) eqn:E.
  - unfold startswith in E. apply prefix_strip_contains in E; [|discriminate].
    congruence.
  - apply strip_idem.
Qed.

Lemma cleanup_fenced_json_tag (content : string) :
  contains fence content = false ->
  cleanup (fenced "json" content) = strip content.
Proof.
  intros H. unfold cleanup. rewrite strip_fenced.
  unfold fenced at 1. rewrite startswith_fence_app.
  unfold fenced. rewrite split_fence_app.
  unfold split. simpl append.
  rewrite !split_go_other_head by reflexivity.
  rewrite (split_go_content content H).
  unfold startswith. simpl append. rewrite !prefix_cons, prefix_nil. simpl.
  apply strip_between_newlines.
Qed.

Lemma cleanup_fenced_no_tag (content : string) :
  contains fence content = false ->
  cleanup (fenced "" content) = strip content.
Proof.
  intros H. unfold cleanup. rewrite strip_fenced.
  unfold fenced at 1. rewrite startswith_fence_app.
  unfold fenced. rewrite split_fence_app.
  unfold split. simpl append.
  rewrite !split_go_other_head by reflexivity.
  rewrite (split_go_content content H).
  unfold startswith. simpl append. rewrite !prefix_cons. simpl.
  apply strip_between_newlines.
Qed.

End CleanupFacts.

(** ** Structured extraction *)

Section ExtractionFacts.

Import PyStr Extraction.
Local Open Scope string_scope.

(** C6 (amended).  For a content that does not hold the fence marker, the
    cleanup of the content wrapped in a fenced block whose tag is [json],
    or that has no tag, is the cleanup of the content itself: the content
    with its surrounding white space stripped.  The extraction then gives
    the same result on both, whatever the parser and the validator. *)
Theorem cleanup_fenced_json (content : string) :
  contains fence content = false ->
  cleanup (fenced "json" content) = strip content /\
  cleanup (fenced "" content) = strip content /\
  cleanup content = strip content /\
  forall (J T : Type) (json_loads : string -> J + string)
         (model_validate : J -> T + string),
    extract_structured_data json_loads model_validate (fenced "json" content)
    = extract_structured_data json_loads model_validate content.
Proof.
  intros H. repeat split.
  - apply cleanup_fenced_json_tag, H.
  - apply cleanup_fenced_no_tag, H.
  - apply cleanup_plain, H.
  - intros J T json_loads model_validate. unfold extract_structured_data.
    rewrite (cleanup_fenced_json_tag content H), (cleanup_plain content H).
    reflexivity.
Qed.

(** The theorem at the content [ {} ], spaces included. *)
Lemma cleanup_fenced_json_witness :
  cleanup (fenced "json" " {} ") = "{}" /\
  cleanup (fenced "" " {} ") = "{}" /\
  cleanup " {} " = "{}".
Proof.
  destruct (cleanup_fenced_json " {} " eq_refl) as (H1 & H2 & H3 & _).
  repeat split; assumption.
Defined.

(** C6, counterexample.  A tag other than [json] stays in the cleaned text,
    and a content that holds the marker is cut at it: in both cases the
    wrapped and the unwrapped content are cleaned to different texts. *)
Lemma cleanup_fenced_other_tag :
  cleanup (fenced "python" "{}") = "python" ++ String "010" "{}" /\
  cleanup "{}" = "{}" /\
  cleanup (fenced "python" "{}") <> cleanup "{}" /\
  cleanup (fenced "json" json_fence_array) = "[" ++ dquote /\
  cleanup json_fence_array = json_fence_array /\
  cleanup (fenced "json" json_fence_array) <> cleanup json_fence_array.
Proof. repeat split; discriminate. Qed.

(** C4 (amended).  A parse failure and a validation failure both end in a
    [ValueError] raised to the caller, whose message is the fixed prefix
    followed by the text of the underlying error; a value is returned
    exactly when the cleaned text parses and the parsed value validates. *)
Theorem extract_failures_raise_value_error
    (J T : Type) (json_loads : string -> J + string)
    (model_validate : J -> T + string) (json_response : string) :
  (forall e, json_loads (cleanup json_response) = inr e ->
     extract_structured_data json_loads model_validate json_response
     = RaiseValueError ("Impossibile parsare risposta come JSON: " ++ e)) /\
  (forall d e, json_loads (cleanup json_response) = inl d ->
     model_validate d = inr e ->
     extract_structured_data json_loads model_validate json_response
     = RaiseValueError ("Impossibile parsare risposta come JSON: " ++ e)) /\
  (forall v,
     extract_structured_data json_loads model_validate json_response = Return v
     <-> exists d, json_loads (cleanup json_response) = inl d
                   /\ model_validate d = inl v).
Proof.
  unfold extract_structured_data, parse_and_validate. repeat split.
  - intros e ->. reflexivity.
  - intros d e -> ->. reflexivity.
  - destruct (json_loads (cleanup json_response)) as [d|e]; [|discriminate].
    destruct (model_validate d) as [v'|e] eqn:E; [|discriminate].
    intros H. injection H as <-. exists d. split; [reflexivity|exact E].
  - intros (d & -> & ->). reflexivity.
Qed.

(** C4, counterexample.  On a text that is not JSON the call raises
    [ValueError] instead of returning an outcome, the exception carries the
    parser's message and not the raw text, and a validation failure raises
    the same kind of exception: no reading of the outcome tells a parse
    failure from a validation failure. *)
Lemma extract_failures_not_told_apart :
  extract_structured_data
    (fun _ => inr "Expecting value: line 1 column 1 (char 0)")
    (fun d : unit => inl d) "not json"
  = RaiseValueError
      "Impossibile parsare risposta come JSON: Expecting value: line 1 column 1 (char 0)"
  /\ ~ exists kind_of : outcome unit -> option failure_kind,
         tells_failures_apart kind_of.
Proof.
  split; [reflexivity|].
  intros [kind_of H].
  destruct (H unit (fun _ => inr "e") (fun d => inl d) "") as [Hp _].
  destruct (H unit (fun _ => inl tt) (fun _ => inr "e") "") as [_ Hs].
  specialize (Hp "e" eq_refl). specialize (Hs tt "e" eq_refl eq_refl).
  unfold extract_structured_data, parse_and_validate in Hp, Hs.
  rewrite Hp in Hs. discriminate Hs.
Qed.

End ExtractionFacts.

(** ** The VAT validator *)

Section VatFacts.

Import PyStr Vat.
Local Open Scope string_scope.

Lemma isdigit_char_not_space (c : ascii) :
  isdigit_char c = true -> Ascii.eqb c " " = false /\ Ascii.eqb c "." = false.
Proof.
  destruct c as [[] [] [] [] [] [] [] []]; intros H;
    first [discriminate H | split; reflexivity].
Qed.

(** Digits hold no separator: cleaning a text of digits changes nothing. *)
Lemma cleaned_digits (s : string) :
  all_chars isdigit_char s = true -> cleaned s = s.
Proof.
  unfold cleaned. induction s as [|c s IH]; [reflexivity|].
  simpl. intros H. apply andb_true_iff in H. destruct H as [Hc Hs].
  destruct (isdigit_char_not_space c Hc) as [H1 H2].
  rewrite H1. simpl. rewrite H2. rewrite (IH Hs). reflexivity.
Qed.

Lemma isdigit_eleven (s : string) :
  eleven_digits s <-> isdigit s = true /\ (String.length s =? 11)%nat = true.
Proof.
  unfold eleven_digits, isdigit. rewrite Nat.eqb_eq. split.
  - intros [Hl Hd]. split; [|exact Hl]. destruct s; [discriminate Hl|exact Hd].
  - intros [Hd Hl]. split; [exact Hl|]. destruct s; [discriminate Hd|exact Hd].
Qed.

Lemma validate_italian_vat_ok (v c : string) :
  validate_italian_vat v = inl c <-> c = cleaned v /\ eleven_digits (cleaned v).
Proof.
  unfold validate_italian_vat. rewrite isdigit_eleven.
  destruct (isdigit (cleaned v)); destruct (String.length (cleaned v) =? 11)%nat;
    simpl; split; try discriminate; try (intros [_ [? ?]]; discriminate).
  - intros H. injection H as <-. repeat split.
  - intros [-> _]. reflexivity.
Qed.

Lemma validate_italian_vat_error (v : string) :
  ~ eleven_digits (cleaned v) ->
  validate_italian_vat v = inr ("P.IVA non valida: " ++ v).
Proof.
  intros H. unfold validate_italian_vat. rewrite isdigit_eleven in H.
  destruct (isdigit (cleaned v)); destruct (String.length (cleaned v) =? 11)%nat;
    simpl; try reflexivity.
  exfalso. apply H. split; reflexivity.
Qed.

(** C7.  The validator strips spaces and periods and checks the digits and
    the length on what is left: ["123 456 789.01"] validates to the eleven
    digits [12345678901]; every input whose stripped form is eleven digits
    validates to that form; and every input whose stripped form is not
    eleven digits (ten digits, say) is rejected, with an error entry that
    names the field it was given for. *)
Theorem validate_italian_vat_eleven_digits :
  validate_italian_vat "123 456 789.01" = inl "12345678901" /\
  validate_italian_vat "1234567890" = inr "P.IVA non valida: 1234567890" /\
  (forall v, eleven_digits (cleaned v) -> validate_italian_vat v = inl (cleaned v)) /\
  (forall v, ~ eleven_digits (cleaned v) ->
     validate_italian_vat v = inr ("P.IVA non valida: " ++ v)) /\
  (forall name v, ~ eleven_digits (cleaned v) ->
     validate_field name v = inr (mk_err name ("P.IVA non valida: " ++ v))) /\
  (forall x, ~ eleven_digits (cleaned (supplier_vat x)) ->
     exists errs, validate_vat_fields x = inr errs
                  /\ In "supplier_vat" (List.map loc errs)) /\
  (forall x, ~ eleven_digits (cleaned (client_vat x)) ->
     exists errs, validate_vat_fields x = inr errs
                  /\ In "client_vat" (List.map loc errs)).
Proof.
  split; [reflexivity|]. split; [reflexivity|]. split; [|split; [|split; [|split]]].
  - intros v H. apply validate_italian_vat_ok. split; [reflexivity|exact H].
  - exact validate_italian_vat_error.
  - intros name v H. unfold validate_field.
    rewrite (validate_italian_vat_error v H). reflexivity.
  - intros x H. unfold validate_vat_fields, validate_field.
    rewrite (validate_italian_vat_error _ H).
    destruct (validate_italian_vat (client_vat x));
      eexists; (split; [reflexivity|]); simpl; auto.
  - intros x H. unfold validate_vat_fields, validate_field.
    rewrite (validate_italian_vat_error _ H).
    destruct (validate_italian_vat (supplier_vat x));
      eexists; (split; [reflexivity|]); simpl; auto.
Qed.

(** The digits of [str.isdigit] are not only [0]-[9]: eleven superscript
    twos (U+00B2) pass the validator as well. *)
Example validate_italian_vat_superscripts :
  let two := ascii_of_nat 178 in
  let v := String two (String two (String two (String two (String two
           (String two (String two (String two (String two (String two
           (String two EmptyString)))))))))) in
  validate_italian_vat v = inl v.
Proof. reflexivity. Qed.

Lemma validate_italian_vat_fixed (v c : string) :
  validate_italian_vat v = inl c -> validate_italian_vat c = inl c.
Proof.
  intros H. apply validate_italian_vat_ok in H. destruct H as [-> H].
  assert (E : cleaned (cleaned v) = cleaned v) by (apply cleaned_digits, H).
  apply validate_italian_vat_ok. rewrite E. split; [reflexivity|exact H].
Qed.

(** C9.  Validation is a function of the value alone, and it accepts what
    it has produced: a value returned by the validator validates again, to
    itself; so do the two fields of a record that validated. *)
Theorem validate_italian_vat_idempotent :
  (forall v c, validate_italian_vat v = inl c -> validate_italian_vat c = inl c) /\
  (forall x y, validate_vat_fields x = inl y -> validate_vat_fields y = inl y).
Proof.
  split; [exact validate_italian_vat_fixed|].
  intros x y. unfold validate_vat_fields, validate_field.
  destruct (validate_italian_vat (supplier_vat x)) as [s|e1] eqn:Es;
    destruct (validate_italian_vat (client_vat x)) as [c|e2] eqn:Ec;
    try discriminate.
  intros H. injection H as <-. simpl.
  rewrite (validate_italian_vat_fixed _ _ Es), (validate_italian_vat_fixed _ _ Ec).
  reflexivity.
Qed.

(** The theorem at the input of the specification's example. *)
Lemma validate_italian_vat_idempotent_witness :
  validate_italian_vat "123 456 789.01" = inl "12345678901" /\
  validate_italian_vat "12345678901" = inl "12345678901".
Proof.
  split; [reflexivity|].
  exact (proj1 validate_italian_vat_idempotent
               "123 456 789.01" "12345678901" eq_refl).
Defined.

End VatFacts.

(** ** The batch processor *)

Section BatchFacts.

Import Batch.
Context {InvoiceData : Type}.
Variable extract_invoice_data : nat -> string -> extraction InvoiceData.

(** [gather] has every result exactly when every extraction comes to an
    end, and the successes among the results are the contributions of the
    items, in order. *)
Lemma gather_from_some (k : nat) (ds : list (string * string))
    (rs : list (string * option InvoiceData)) :
  gather_from extract_invoice_data k ds = Some rs ->
  (forall i d, ds !! i = Some d -> ends extract_invoice_data (k + i) d)
  /\ successful rs = contributions_from extract_invoice_data k ds.
Proof.
  revert k rs. induction ds as [|d ds IH]; intros k rs H; simpl in H.
  - injection H as <-. split; [intros i d Hi; discriminate Hi|reflexivity].
  - destruct (process_one extract_invoice_data k (fst d) (snd d)) as [r|] eqn:P;
      [|discriminate H].
    destruct (gather_from extract_invoice_data (S k) ds) as [rs'|] eqn:G;
      [|discriminate H].
    injection H as <-. destruct (IH _ _ G) as [F Hs].
    unfold process_one in P. split.
    + intros [|i] d' Hi; simpl in Hi.
      * injection Hi as <-. rewrite Nat.add_0_r. unfold ends.
        destruct (extract_invoice_data k (snd d)); discriminate.
      * rewrite Nat.add_succ_r. apply (F i d' Hi).
    + simpl. unfold contribution.
      destruct (extract_invoice_data k (snd d)); inversion P; subst; simpl;
        rewrite Hs; reflexivity.
Qed.

Lemma gather_from_ends (k : nat) (ds : list (string * string)) :
  (forall i d, ds !! i = Some d -> ends extract_invoice_data (k + i) d) ->
  exists rs, gather_from extract_invoice_data k ds = Some rs.
Proof.
  revert k. induction ds as [|d ds IH]; intros k F; simpl;
    [eexists; reflexivity|].
  destruct (IH (S k)) as [rs G].
  { intros i d' Hi. specialize (F (S i) d' Hi).
    rewrite Nat.add_succ_r in F. exact F. }
  rewrite G. specialize (F 0%nat d eq_refl). rewrite Nat.add_0_r in F.
  unfold process_one, ends in *.
  destruct (extract_invoice_data k (snd d));
    [eexists; reflexivity..|contradiction].
Qed.

Lemma contributions_ids (k : nat) (ds : list (string * string)) :
  List.map fst (contributions_from extract_invoice_data k ds)
  = List.map fst (extracted_from extract_invoice_data k ds).
Proof.
  revert k. induction ds as [|d ds IH]; intros k; [reflexivity|]. simpl.
  unfold contribution, succeeds.
  destruct (extract_invoice_data k (snd d)); simpl; rewrite IH; reflexivity.
Qed.

Lemma contributions_length (k : nat) (ds : list (string * string)) :
  (List.length (contributions_from extract_invoice_data k ds)
   <= List.length ds)%nat /\
  (List.length (contributions_from extract_invoice_data k ds) = List.length ds
   <-> forall i d, ds !! i = Some d ->
                   succeeds extract_invoice_data (k + i) d = true).
Proof.
  revert k. induction ds as [|d ds IH]; intros k.
  - split; [reflexivity|]. split; [intros _ i d Hi; discriminate Hi|reflexivity].
  - destruct (IH (S k)) as [IH1 IH2]. simpl. rewrite List.length_app.
    assert (Hd : succeeds extract_invoice_data k d = true
                 /\ List.length (contribution extract_invoice_data k d) = 1%nat
                 \/ succeeds extract_invoice_data k d = false
                    /\ List.length (contribution extract_invoice_data k d) = 0%nat).
    { unfold succeeds, contribution.
      destruct (extract_invoice_data k (snd d)); simpl; auto. }
    destruct Hd as [[Hs Hl]|[Hs Hl]]; rewrite Hl; (split; [lia|]); split.
    + intros H [|i] d' Hi; simpl in Hi.
      * injection Hi as <-. rewrite Nat.add_0_r. exact Hs.
      * rewrite Nat.add_succ_r. apply (proj1 IH2); [lia|exact Hi].
    + intros H. f_equal. apply IH2. intros i d' Hi.
      specialize (H (S i) d' Hi). rewrite Nat.add_succ_r in H. exact H.
    + simpl. lia.
    + intros H. specialize (H 0%nat d eq_refl). rewrite Nat.add_0_r in H.
      congruence.
Qed.

Lemma contributions_In (k : nat) (ds : list (string * string)) (doc_id : string)
    (data : InvoiceData) :
  In (doc_id, data) (contributions_from extract_invoice_data k ds) <->
  exists i text, ds !! i = Some (doc_id, text)
                 /\ extract_invoice_data (k + i)%nat text = Extracted data.
Proof.
  revert k. induction ds as [|d ds IH]; intros k; simpl.
  - split; [contradiction|]. intros (i & text & Hi & _). discriminate Hi.
  - rewrite List.in_app_iff, IH. split.
    + intros [H|(i & text & Hi & E)].
      * unfold contribution in H. destruct d as [i0 t]. simpl in H.
        destruct (extract_invoice_data k t) as [data'|msg|] eqn:E;
          try contradiction.
        destruct H as [H|[]]. injection H as -> ->.
        exists 0%nat, t. rewrite Nat.add_0_r. split; [reflexivity|exact E].
      * exists (S i), text. rewrite Nat.add_succ_r. split; [exact Hi|exact E].
    + intros ([|i] & text & Hi & E); simpl in Hi.
      * injection Hi as ->. rewrite Nat.add_0_r in E. left.
        unfold contribution. simpl. rewrite E. left. reflexivity.
      * right. exists i, text. rewrite Nat.add_succ_r in E.
        split; [exact Hi|exact E].
Qed.

Lemma contributions_app (k : nat) (before after : list (string * string)) :
  contributions_from extract_invoice_data k (before ++ after)
  = contributions_from extract_invoice_data k before
    ++ contributions_from extract_invoice_data (k + List.length before) after.
Proof.
  revert k. induction before as [|d before IH]; intros k; simpl.
  - rewrite Nat.add_0_r. reflexivity.
  - rewrite IH, Nat.add_succ_r, <- List.app_assoc. reflexivity.
Qed.

(** What the call returns, when it returns. *)
Lemma batch_returns (documents : list (string * string)) (max_concurrent : Z)
    (result : list (string * InvoiceData)) :
  batch_process_documents extract_invoice_data documents max_concurrent
  = Returns result ->
  result = contributions_from extract_invoice_data 0 documents
  /\ 0 <= max_concurrent
  /\ (documents = []
      \/ 0 < max_concurrent /\ all_end extract_invoice_data documents).
Proof.
  unfold batch_process_documents, gather_results.
  destruct (max_concurrent <? 0) eqn:E0; [discriminate|]. apply Z.ltb_ge in E0.
  destruct documents as [|d ds].
  - intros H. injection H as <-. repeat split; [exact E0|left; reflexivity].
  - destruct (max_concurrent =? 0) eqn:E1; [discriminate|]. apply Z.eqb_neq in E1.
    destruct (gather_from extract_invoice_data 0 (d :: ds)) as [rs|] eqn:G;
      [|discriminate].
    intros H. injection H as <-.
    destruct (gather_from_some _ _ _ G) as [F Hs].
    split; [exact Hs|]. split; [exact E0|]. right. split; [lia|exact F].
Qed.

(** When the call returns. *)
Lemma batch_returns_when (documents : list (string * string)) (max_concurrent : Z) :
  0 <= max_concurrent ->
  documents = [] \/ 0 < max_concurrent /\ all_end extract_invoice_data documents ->
  batch_process_documents extract_invoice_data documents max_concurrent
  = Returns (contributions_from extract_invoice_data 0 documents).
Proof.
  intros H0 H. unfold batch_process_documents, gather_results.
  replace (max_concurrent <? 0) with false by (symmetry; apply Z.ltb_ge; exact H0).
  destruct documents as [|d ds]; [reflexivity|].
  destruct H as [H|[Hpos F]]; [discriminate H|].
  replace (max_concurrent =? 0) with false by (symmetry; apply Z.eqb_neq; lia).
  destruct (gather_from_ends 0 _ F) as [rs G]. rewrite G.
  destruct (gather_from_some _ _ _ G) as [_ Hs]. rewrite Hs. reflexivity.
Qed.

(** C3 (amended).  With a negative bound the call raises [ValueError];
    with a bound of 0 on a batch that is not empty, or with an item whose
    extraction never returns, it never returns; otherwise it returns one
    [(identifier, data)] pair for every submitted item whose extraction
    succeeded, in the order of submission, and none for an item whose
    extraction raised.  Every pair returned is the data of an item of the
    batch under its identifier, and what an item contributes does not
    depend on the items around it, so an item that raises takes no other
    item's pair away and changes none. *)
Theorem batch_returns_successful_items
    (documents : list (string * string)) (max_concurrent : Z) :
  let batch :=
    batch_process_documents extract_invoice_data documents max_concurrent in
  (max_concurrent < 0 <-> exists message, batch = RaisesValueError message) /\
  ((exists result, batch = Returns result) <->
   0 <= max_concurrent
   /\ (documents = []
       \/ 0 < max_concurrent /\ all_end extract_invoice_data documents)) /\
  (batch = Hangs <->
   0 <= max_concurrent /\ documents <> []
   /\ (max_concurrent = 0 \/ ~ all_end extract_invoice_data documents)) /\
  (forall result,
     batch = Returns result ->
     result = contributions_from extract_invoice_data 0 documents /\
     List.map fst result
     = List.map fst (extracted_from extract_invoice_data 0 documents) /\
     (List.length result <= List.length documents)%nat /\
     (List.length result = List.length documents <->
      all_succeed extract_invoice_data documents) /\
     (forall doc_id data,
        In (doc_id, data) result <->
        exists i text, documents !! i = Some (doc_id, text)
                       /\ extract_invoice_data i text = Extracted data) /\
     (forall before d after,
        documents = before ++ d :: after ->
        result
        = contributions_from extract_invoice_data 0 before
          ++ contribution extract_invoice_data (List.length before) d
          ++ contributions_from extract_invoice_data
               (S (List.length before)) after)).
Proof.
  cbv zeta. split; [|split; [|split]].
  - unfold batch_process_documents. split.
    + intros H. apply Z.ltb_lt in H. rewrite H. eexists. reflexivity.
    + intros [message H]. destruct (max_concurrent <? 0) eqn:E; [apply Z.ltb_lt, E|].
      destruct documents; [discriminate H|].
      destruct (max_concurrent =? 0); [discriminate H|].
      destruct (gather_results _ _); discriminate H.
  - split.
    + intros [result H]. apply batch_returns in H. tauto.
    + intros [H0 H]. eexists. apply batch_returns_when; assumption.
  - split.
    + intros H. unfold batch_process_documents, gather_results in H.
      destruct (max_concurrent <? 0) eqn:E0; [discriminate H|]. apply Z.ltb_ge in E0.
      destruct documents as [|d ds]; [discriminate H|].
      split; [exact E0|]. split; [discriminate|].
      destruct (max_concurrent =? 0) eqn:E1; [left; apply Z.eqb_eq, E1|].
      right. intros F. destruct (gather_from_ends 0 _ F) as [rs G].
      rewrite G in H. discriminate H.
    + intros (H0 & Hne & H).
      destruct (batch_process_documents extract_invoice_data documents max_concurrent)
        as [result|message|] eqn:B; [| |reflexivity]; exfalso.
      * apply batch_returns in B. destruct B as (_ & _ & [B|[Bpos BF]]);
          [contradiction|]. destruct H as [H|H]; [lia|contradiction].
      * unfold batch_process_documents in B.
        replace (max_concurrent <? 0) with false in B
          by (symmetry; apply Z.ltb_ge; exact H0).
        destruct documents; [contradiction|].
        destruct (max_concurrent =? 0); [discriminate B|].
        destruct (gather_results _ _); discriminate B.
  - intros result H. apply batch_returns in H. destruct H as (-> & _ & _).
    split; [reflexivity|]. split; [apply contributions_ids|].
    split; [apply contributions_length|]. split; [apply contributions_length|].
    split; [intros doc_id data; apply contributions_In|].
    intros before d after ->. rewrite contributions_app. reflexivity.
Qed.

End BatchFacts.

Section BatchExamples.

Import Batch.
Local Open Scope string_scope.

(** C3, counterexample.  In a batch of two items of which the second
    fails, one pair is returned and the identifier of the failing item is
    not in the result. *)
Lemma batch_drops_failed_item :
  let extract := fun (i : nat) (text : string) =>
    if String.eqb text "bad" then Raised "boom" else Extracted text in
  let result := [("doc_0", "ok")] in
  batch_process_documents extract [("doc_0", "ok"); ("doc_1", "bad")] 5
  = Returns result /\
  List.length result <> 2%nat /\
  ~ In "doc_1" (List.map fst result).
Proof.
  cbv zeta. split; [reflexivity|]. split.
  - discriminate.
  - simpl. intros [H|[]]. discriminate H.
Qed.

End BatchExamples.

(** ** Metrics *)

Section MetricsFacts.

Import Metrics.

Lemma insert_sorted_perm (x : Z) (l : list Z) :
  Permutation (x :: l) (insert_sorted x l).
Proof.
  induction l as [|y l IH]; simpl; [reflexivity|].
  destruct (x <=? y); [reflexivity|].
  rewrite perm_swap. apply perm_skip, IH.
Qed.

Lemma insert_sorted_sorted (x : Z) (l : list Z) :
  Sorted Z.le l -> Sorted Z.le (insert_sorted x l).
Proof.
  induction l as [|y l IH]; intros Hs; simpl.
  - repeat constructor.
  - destruct (x <=? y) eqn:E.
    + constructor; [exact Hs|]. constructor. lia.
    + inversion Hs as [|? ? Hs' Hhd]; subst.
      constructor; [apply IH, Hs'|].
      destruct l as [|z l]; simpl.
      * constructor. lia.
      * destruct (x <=? z); constructor; [lia|].
        inversion Hhd; subst. assumption.
Qed.

(** [sorted] returns the samples in ascending order. *)
Lemma sorted_perm (l : list Z) : Permutation l (sorted l).
Proof.
  induction l as [|x l IH]; simpl; [reflexivity|].
  rewrite <- insert_sorted_perm. apply perm_skip, IH.
Qed.

Lemma sorted_sorted (l : list Z) : Sorted Z.le (sorted l).
Proof.
  induction l as [|x l IH]; simpl; [constructor|].
  apply insert_sorted_sorted, IH.
Qed.

Lemma sorted_length (l : list Z) : List.length (sorted l) = List.length l.
Proof. symmetry. apply Permutation_length, sorted_perm. Qed.

(** The index is within the samples: [sorted_times[index]] does not fail. *)
Lemma p95_index_lt (n : nat) : (0 < n)%nat -> (p95_index n < n)%nat.
Proof.
  intros H. unfold p95_index.
  assert (Z.of_nat n * 95 / 100 < Z.of_nat n).
  { apply Z.div_lt_upper_bound; lia. }
  assert (0 <= Z.of_nat n * 95 / 100) by (apply Z.div_pos; lia).
  lia.
Qed.

(** The floor of [0.95 n] is [ceil(0.95 n) - 1] unless [0.95 n] is an
    integer, that is, unless 20 divides [n]. *)
Lemma p95_index_ceil (n : nat) :
  (n mod 20 <> 0)%nat -> p95_index n = ceil_index n.
Proof.
  intros H. unfold p95_index, ceil_index. f_equal.
  assert (Hz : Z.of_nat n mod 20 <> 0).
  { intros E. apply H. apply Nat2Z.inj. rewrite Nat2Z.inj_mod. exact E. }
  Z.div_mod_to_equations. lia.
Qed.

Lemma p95_index_multiple_of_20 (k : nat) :
  (0 < k)%nat -> p95_index (20 * k) = S (ceil_index (20 * k)).
Proof.
  intros H. unfold p95_index, ceil_index.
  rewrite Nat2Z.inj_mul. change (Z.of_nat 20) with 20.
  replace (20 * Z.of_nat k * 95) with (Z.of_nat k * 19 * 100) by lia.
  rewrite Z.div_mul by lia.
  replace ((Z.of_nat k * 19 * 100 + 99) / 100) with (Z.of_nat k * 19).
  - lia.
  - apply Z.div_unique with (r := 99); lia.
Qed.

Lemma p95_response_time_defined (m : APIMetrics) :
  exists x, p95_response_time m = Some x.
Proof.
  unfold p95_response_time.
  destruct (response_times m) as [|t ts] eqn:E; [exists 0; reflexivity|].
  destruct (nth_error (sorted (t :: ts)) (p95_index (List.length (sorted (t :: ts)))))
    as [x|] eqn:N; [exists x; reflexivity|].
  apply nth_error_None in N.
  pose proof (p95_index_lt (List.length (sorted (t :: ts)))) as L.
  rewrite sorted_length in *. simpl in *. lia.
Qed.

(** C8 (amended).  The 95th percentile is 0 for an empty sample set, and
    otherwise the entry of the ascending samples at index
    [floor(0.95 * count)], an index that is always within the samples; that
    index is [ceil(0.95 * count) - 1] whenever 20 does not divide the count,
    and for the 10 samples 100..1000 it is 9, the entry 1000. *)
Theorem p95_response_time_floor_index (m : APIMetrics) :
  (response_times m = [] -> p95_response_time m = Some 0) /\
  (response_times m <> [] ->
     p95_response_time m
     = nth_error (sorted (response_times m))
                 (p95_index (List.length (response_times m)))) /\
  (exists x, p95_response_time m = Some x) /\
  Sorted Z.le (sorted (response_times m)) /\
  Permutation (response_times m) (sorted (response_times m)) /\
  ((List.length (response_times m) mod 20 <> 0)%nat ->
     p95_index (List.length (response_times m))
     = ceil_index (List.length (response_times m))) /\
  p95_response_time (with_times latencies_100_to_1000) = Some 1000 /\
  p95_index 10 = 9%nat /\ ceil_index 10 = 9%nat.
Proof.
  split; [|split; [|split; [|split; [|split; [|split; [|split; [|split]]]]]]].
  - unfold p95_response_time. intros ->. reflexivity.
  - unfold p95_response_time. intros H.
    destruct (response_times m) as [|t ts] eqn:E; [contradiction|].
    rewrite sorted_length. reflexivity.
  - apply p95_response_time_defined.
  - apply sorted_sorted.
  - apply sorted_perm.
  - apply p95_index_ceil.
  - reflexivity.
  - reflexivity.
  - reflexivity.
Qed.

(** C8, counterexample.  For the 20 samples 1..20 the code returns the
    entry at index 19, the largest sample, and not the entry at index
    [ceil(0.95 * 20) - 1 = 18]. *)
Lemma p95_of_20_samples_is_not_ceil_index :
  p95_response_time (with_times latencies_1_to_20) = Some 20 /\
  ceil_index 20 = 18%nat /\
  nth_error (sorted latencies_1_to_20) (ceil_index 20) = Some 19 /\
  p95_response_time (with_times latencies_1_to_20)
  <> nth_error (sorted latencies_1_to_20) (ceil_index 20).
Proof. repeat split. discriminate. Qed.

Lemma record_request_consistent (m : APIMetrics) (ok : bool) (tokens time : Z)
    (err : option string) :
  consistent m -> consistent (record_request m ok tokens time err).
Proof.
  unfold consistent, record_request. intros (H1 & H2 & H3 & H4). simpl.
  rewrite List.length_app. simpl. destruct ok; repeat split; lia.
Qed.

Lemma fold_record_consistent (calls : list request) (m : APIMetrics) :
  consistent m ->
  consistent (fold_left (fun m r => record_request m (success r) (tokens_used r)
                                      (response_time r) (error r)) calls m).
Proof.
  revert m. induction calls as [|r calls IH]; intros m H; simpl; [exact H|].
  apply IH, record_request_consistent, H.
Qed.

Lemma fold_record_total (calls : list request) (m : APIMetrics) :
  total_requests (fold_left (fun m r => record_request m (success r) (tokens_used r)
                                          (response_time r) (error r)) calls m)
  = total_requests m + Z.of_nat (List.length calls).
Proof.
  revert m. induction calls as [|r calls IH]; intros m; simpl List.length.
  - simpl. lia.
  - simpl fold_left. rewrite IH. simpl. lia.
Qed.

(** C10.  After every sequence of [record_request] calls the counters
    agree: the total is the number of calls and the sum of the successes
    and the failures, there is one latency sample per call, and the success
    rate is the successes divided by the total when a request has been
    recorded and 0 when none has. *)
Theorem record_request_counters_consistent (calls : list request) :
  let m := record_all calls in
  total_requests m = Z.of_nat (List.length calls) /\
  total_requests m = successful_requests m + failed_requests m /\
  Z.of_nat (List.length (response_times m)) = total_requests m /\
  (0 < total_requests m ->
     success_rate m
     = (inject_Z (successful_requests m) / inject_Z (total_requests m))%Q) /\
  (total_requests m = 0 -> success_rate m = 0%Q) /\
  (calls = [] -> success_rate m = 0%Q) /\
  (0 <= success_rate m <= 1)%Q.
Proof.
  cbv zeta. unfold record_all.
  assert (C : consistent empty) by (unfold consistent; simpl; lia).
  pose proof (fold_record_consistent calls empty C) as (H1 & H2 & H3 & H4).
  pose proof (fold_record_total calls empty) as HT. simpl in HT.
  set (m := fold_left _ calls empty) in *.
  split; [exact HT|]. split; [exact H1|]. split; [exact H2|].
  split; [|split; [|split]].
  - intros Hpos. unfold success_rate.
    destruct (total_requests m =? 0) eqn:E; [lia|reflexivity].
  - intros H0. unfold success_rate. rewrite H0. reflexivity.
  - intros ->. reflexivity.
  - unfold success_rate. destruct (total_requests m =? 0) eqn:E.
    + split; discriminate.
    + apply Z.eqb_neq in E.
      assert (Hpos : 0 < total_requests m) by lia.
      split.
      * apply Qle_shift_div_l; [unfold Qlt; simpl; lia|].
        unfold Qle; simpl. lia.
      * apply Qle_shift_div_r; [unfold Qlt; simpl; lia|].
        unfold Qle; simpl. lia.
Qed.

End MetricsFacts.

(** * Further properties *)

(** ** The rate limiter's ledger and lock *)

Section LedgerFacts.

Import RateLimiter Ledger.

Lemma py_sum_cons (x : Z) (xs : list Z) : py_sum (x :: xs) = x + py_sum xs.
Proof. unfold py_sum. simpl. rewrite fold_left_add_shift. lia. Qed.

Lemma sum_tokens_cons (e : Z * Z) (ts : list (Z * Z)) :
  sum_tokens (e :: ts) = snd e + sum_tokens ts.
Proof. unfold sum_tokens. simpl. apply py_sum_cons. Qed.

Lemma sum_tokens_nonneg (ts : list (Z * Z)) :
  Forall (fun e => 0 <= snd e) ts -> 0 <= sum_tokens ts.
Proof.
  induction 1 as [|e ts He _ IH]; [unfold sum_tokens, py_sum; simpl; lia|].
  rewrite sum_tokens_cons. lia.
Qed.

Lemma prune_tokens_nonneg (c : Z) (ts : list (Z * Z)) :
  Forall (fun e => 0 <= snd e) ts ->
  Forall (fun e => 0 <= snd e) (prune_tokens c ts).
Proof.
  unfold prune_tokens. induction 1 as [|e ts He _ IH]; simpl; [constructor|].
  destruct (c <? fst e); [constructor; assumption|assumption].
Qed.

(** Pruning amounts that are not negative does not raise their sum. *)
Lemma prune_tokens_sum_le (c : Z) (ts : list (Z * Z)) :
  Forall (fun e => 0 <= snd e) ts ->
  sum_tokens (prune_tokens c ts) <= sum_tokens ts.
Proof.
  unfold prune_tokens. induction 1 as [|e ts He _ IH]; simpl; [lia|].
  destruct (c <? fst e); rewrite ?sum_tokens_cons; lia.
Qed.

Lemma prune_aligned (c : Z) (ts : list (Z * Z)) :
  List.map fst (prune_tokens c ts) = prune_requests c (List.map fst ts).
Proof.
  unfold prune_tokens, prune_requests. induction ts as [|e ts IH]; simpl; [reflexivity|].
  destruct (c <? fst e); simpl; rewrite IH; reflexivity.
Qed.

Lemma prune_requests_sorted (c : Z) (rs : list Z) :
  StronglySorted Z.le rs -> StronglySorted Z.le (prune_requests c rs).
Proof.
  unfold prune_requests. induction 1 as [|r rs Hs IH Hr]; simpl; [constructor|].
  destruct (c <? r); [|exact IH]. constructor; [exact IH|].
  apply List.Forall_forall. intros x Hx. apply List.filter_In in Hx.
  destruct Hx as [Hx _]. rewrite List.Forall_forall in Hr. apply Hr, Hx.
Qed.

Lemma prune_requests_le (c now : Z) (rs : list Z) :
  Forall (fun r => r <= now) rs -> Forall (fun r => r <= now) (prune_requests c rs).
Proof.
  unfold prune_requests. induction 1 as [|r rs Hr _ IH]; simpl; [constructor|].
  destruct (c <? r); [constructor; assumption|assumption].
Qed.

Lemma sorted_snoc (rs : list Z) (now : Z) :
  StronglySorted Z.le rs -> Forall (fun r => r <= now) rs ->
  StronglySorted Z.le (rs ++ [now]).
Proof.
  induction 1 as [|r rs Hs IH Hr]; intros Hle; simpl.
  - repeat constructor.
  - inversion Hle as [|? ? H1 H2]; subst. constructor; [apply IH, H2|].
    apply List.Forall_app. split; [exact Hr|]. constructor; [exact H1|constructor].
Qed.

(** The ledger a decision leaves, whichever the decision. *)
Lemma ledger_after_acquire_body (s : t) (now est : Z) :
  let s' := ledger_after (acquire_body s now est) in
  (requests s' = requests_in_window s now
   /\ tokens_used s' = prune_tokens (cutoff s now) (tokens_used s)
   \/ requests s' = requests_in_window s now ++ [now]
      /\ tokens_used s' = prune_tokens (cutoff s now) (tokens_used s) ++ [(now, est)]
      /\ Z.of_nat (List.length (requests_in_window s now)) < max_requests s
      /\ tokens_in_window s now + est <= max_tokens s)
  /\ max_requests s' = max_requests s
  /\ max_tokens s' = max_tokens s
  /\ window_seconds s' = window_seconds s.
Proof.
  cbv zeta. destruct (acquire_body s now est) as [s'|s' w] eqn:E; simpl.
  - apply acquire_body_admit in E. destruct E as (H1 & H2 & ->). simpl.
    split; [right|]; repeat split; assumption.
  - apply acquire_body_wait in E. destruct E as (_ & -> & _). simpl.
    split; [left|]; repeat split.
Qed.

(** X1.  A call of [acquire] returns exactly when its first evaluation
    admits it, and then it leaves the lock free and the ledger the
    admission recorded; when the first evaluation decides to wait the call
    stays blocked on its own lock, which it goes on holding. *)
Theorem acquire_returns_iff_admitted (s : t) (now est : Z) (fuel : nat) :
  (snd (run (4 + fuel) (call s now est)) = Returned
   <-> exists s', acquire_body s now est = Admit s') /\
  (snd (run (4 + fuel) (call s now est)) = Blocked
   <-> exists s' w, acquire_body s now est = Wait s' w) /\
  (forall s', acquire_body s now est = Admit s' ->
     locked (final_config (4 + fuel) (call s now est)) = false /\
     limiter (final_config (4 + fuel) (call s now est)) = s') /\
  (forall s' w, acquire_body s now est = Wait s' w ->
     locked (final_config (4 + fuel) (call s now est)) = true /\
     limiter (final_config (4 + fuel) (call s now est)) = s').
Proof.
  unfold final_config.
  destruct (acquire_body s now est) as [s'|s' w] eqn:E.
  - rewrite (acquire_admit_returns s now est s' fuel E). simpl.
    split; [split; [intros _; exists s'; reflexivity|reflexivity]|].
    split; [split; [discriminate|intros (x & y & Hxy); discriminate Hxy]|].
    split.
    + intros x Hx. injection Hx as <-. split; reflexivity.
    + intros x y Hxy. discriminate Hxy.
  - rewrite (acquire_wait_deadlocks s now est s' w fuel E). simpl.
    split; [split; [discriminate|intros (x & Hx); discriminate Hx]|].
    split; [split; [intros _; exists s', w; reflexivity|reflexivity]|].
    split.
    + intros x Hx. discriminate Hx.
    + intros x y Hxy. injection Hxy as <- _. split; reflexivity.
Qed.

(** X2.  When [acquire] decides to wait on a ledger whose first in-window
    request is [r0], the wait is positive and exactly long enough for [r0]
    to leave the window: at any earlier clock [r0] is still counted, at
    the end of the wait it is not, so fewer requests are counted then; and
    the wait is no longer than the window when [r0] is not in the future. *)
Theorem acquire_wait_time_frees_oldest (s : t) (now est : Z) (s' : t)
    (w r0 : Z) (rest : list Z) :
  acquire_body s now est = Wait s' w ->
  requests s' = r0 :: rest ->
  0 < w /\ w = r0 - cutoff s now /\
  (forall w', 0 <= w' < w -> In r0 (requests_in_window s' (now + w'))) /\
  ~ In r0 (requests_in_window s' (now + w)) /\
  (List.length (requests_in_window s' (now + w)) < List.length (requests s'))%nat /\
  (r0 <= now -> w <= timedelta (window_seconds s)).
Proof.
  intros E Hr. pose proof E as E'. apply acquire_body_wait in E'.
  destruct E' as (_ & Hs' & Hw).
  assert (Hwv : w = r0 - cutoff s now).
  { unfold acquire_body in E.
    replace (prune_requests (cutoff s now) (requests s)) with (r0 :: rest) in E
      by (rewrite Hs' in Hr; simpl in Hr; symmetry; exact Hr).
    destruct (_ || _); [|discriminate]. injection E as _ <-. reflexivity. }
  assert (Hc : forall x, cutoff s' x = cutoff s x) by (intros x; rewrite Hs'; reflexivity).
  split; [exact Hw|]. split; [exact Hwv|]. repeat split.
  - intros w' Hw'. unfold requests_in_window, prune_requests.
    apply List.filter_In. rewrite Hr. split; [left; reflexivity|].
    apply Z.ltb_lt. rewrite Hc. unfold cutoff in *. lia.
  - unfold requests_in_window, prune_requests. intros H.
    apply List.filter_In in H. destruct H as [_ H]. apply Z.ltb_lt in H.
    rewrite Hc in H. unfold cutoff in *. lia.
  - unfold requests_in_window. rewrite Hr. unfold prune_requests. simpl.
    replace (cutoff s' (now + w) <? r0) with false
      by (symmetry; apply Z.ltb_ge; rewrite Hc; unfold cutoff in *; lia).
    pose proof (prune_requests_length (cutoff s' (now + w)) rest) as L.
    unfold prune_requests in L. lia.
  - intros H. unfold cutoff in Hwv. lia.
Qed.

(** The theorem on a ledger with one request, asked for a second. *)
Lemma acquire_wait_time_frees_oldest_witness :
  0 < 59000000 /\
  ~ In 0 (requests_in_window (mk 1 90000 60 [0] [(0, 1000)]) (1000000 + 59000000)).
Proof.
  destruct (acquire_wait_time_frees_oldest
              (mk 1 90000 60 [0] [(0, 1000)]) 1000000 1000
              (mk 1 90000 60 [0] [(0, 1000)]) 59000000 0 []
              eq_refl eq_refl) as (H1 & _ & _ & H2 & _).
  split; assumption.
Defined.

End LedgerFacts.

Section LedgerInvariants.

Import RateLimiter Ledger.

Lemma aligned_step (s : t) (now est : Z) :
  aligned s -> aligned (ledger_after (acquire_body s now est)).
Proof.
  unfold aligned. intros H.
  destruct (ledger_after_acquire_body s now est) as ([(Hr & Ht) | (Hr & Ht & _)] & _);
    rewrite Hr, Ht; unfold requests_in_window.
  - rewrite prune_aligned, H. reflexivity.
  - rewrite List.map_app, prune_aligned, H. reflexivity.
Qed.

Lemma aligned_calls (calls : list (Z * Z)) (s : t) :
  aligned s ->
  Forall (fun c => match c with
                   | (s0, _, _, d) => aligned s0 /\ aligned (ledger_after d)
                   end)
         (acquire_calls s calls).
Proof.
  revert s. induction calls as [|[now est] rest IH]; intros s H; simpl.
  - constructor.
  - pose proof (aligned_step s now est H) as H'.
    constructor; [split; assumption|].
    destruct (acquire_body s now est) as [s'|s' w]; [apply IH, H'|constructor].
Qed.

(** X3.  From a new limiter on, the two lists of the ledger stay aligned:
    before and after every call [tokens_used] carries exactly the
    timestamps of [requests], in the same order. *)
Theorem acquire_ledgers_aligned (max_requests max_tokens window_seconds : Z)
    (calls : list (Z * Z)) :
  Forall (fun c => match c with
                   | (s0, _, _, d) => aligned s0 /\ aligned (ledger_after d)
                   end)
         (acquire_calls (init max_requests max_tokens window_seconds) calls).
Proof. apply aligned_calls. reflexivity. Qed.

Lemma chronological_step (s : t) (now est : Z) :
  chronological s now -> chronological (ledger_after (acquire_body s now est)) now.
Proof.
  unfold chronological. intros [Hs Hle].
  pose proof (prune_requests_sorted (cutoff s now) _ Hs) as Hs'.
  pose proof (prune_requests_le (cutoff s now) now _ Hle) as Hle'.
  destruct (ledger_after_acquire_body s now est) as ([(Hr & _) | (Hr & _)] & _);
    rewrite Hr; unfold requests_in_window.
  - split; assumption.
  - split; [apply sorted_snoc; assumption|].
    apply List.Forall_app. split; [assumption|]. constructor; [lia|constructor].
Qed.

Lemma chronological_later (s : t) (t0 now : Z) :
  t0 <= now -> chronological s t0 -> chronological s now.
Proof.
  unfold chronological. intros H [Hs Hle]. split; [exact Hs|].
  eapply List.Forall_impl; [|exact Hle]. simpl. intros r Hr. lia.
Qed.

Lemma chronological_calls (calls : list (Z * Z)) (s : t) (t0 : Z) :
  StronglySorted Z.le (List.map fst calls) ->
  Forall (fun c => t0 <= fst c) calls ->
  chronological s t0 ->
  Forall (fun c => match c with
                   | (s0, now, _, d) =>
                       chronological s0 now /\ chronological (ledger_after d) now
                   end)
         (acquire_calls s calls).
Proof.
  revert s t0. induction calls as [|[now est] rest IH]; intros s t0 Hs Ht Hc; simpl.
  - constructor.
  - inversion Hs as [|? ? Hs' Hall]; subst. inversion Ht as [|? ? Hnow _]; subst.
    simpl in Hnow.
    pose proof (chronological_later s t0 now Hnow Hc) as Hc1.
    pose proof (chronological_step s now est Hc1) as Hc2.
    constructor; [split; assumption|].
    destruct (acquire_body s now est) as [s'|s' w]; [|constructor].
    apply (IH s' now); [exact Hs'| |exact Hc2].
    exact (proj1 (List.Forall_map fst (Z.le now) rest) Hall).
Qed.

(** X4.  When the clock readings of the calls do not go back, the ledger of
    a new limiter stays in chronological order and holds no timestamp later
    than the current reading: [requests[0]], which the wait is computed
    from, is the oldest request recorded. *)
Theorem acquire_ledger_chronological
    (max_requests max_tokens window_seconds : Z) (calls : list (Z * Z)) :
  StronglySorted Z.le (List.map fst calls) ->
  Forall (fun c => match c with
                   | (s0, now, _, d) =>
                       chronological s0 now /\ chronological (ledger_after d) now
                   end)
         (acquire_calls (init max_requests max_tokens window_seconds) calls).
Proof.
  intros Hs. destruct calls as [|[now est] rest]; [constructor|].
  apply (chronological_calls _ _ now); [exact Hs| |].
  - inversion Hs as [|? ? _ Hall]; subst. constructor; [simpl; lia|].
    exact (proj1 (List.Forall_map fst (Z.le now) rest) Hall).
  - split; constructor.
Qed.

(** The theorem on three calls one second apart. *)
Lemma acquire_ledger_chronological_witness :
  Forall (fun c => match c with
                   | (s0, now, _, d) =>
                       chronological s0 now /\ chronological (ledger_after d) now
                   end)
         (acquire_calls (init 2 1000 60) [(0, 400); (1000000, 400); (2000000, 100)]).
Proof.
  apply (acquire_ledger_chronological 2 1000 60
           [(0, 400); (1000000, 400); (2000000, 100)]).
  simpl. repeat (constructor; try lia).
Defined.

(** X5.  [acquire] never admits a call on a limiter whose request limit is
    not positive, nor a call whose estimate alone is above [max_tokens]
    when no recorded amount is negative: whatever the clock reading, such a
    call takes the waiting branch. *)
Theorem acquire_never_admits (s : t) (now est : Z) :
  max_requests s <= 0
  \/ (Forall (fun e => 0 <= snd e) (tokens_used s) /\ max_tokens s < est) ->
  exists s' w, acquire_body s now est = Wait s' w.
Proof.
  intros H. destruct (acquire_body s now est) as [s'|s' w] eqn:E; [|eauto].
  exfalso. apply acquire_body_admit in E. destruct E as (Hr & Ht & _).
  destruct H as [H | [Hn H]]; [lia|].
  pose proof (sum_tokens_nonneg _ (prune_tokens_nonneg (cutoff s now) _ Hn)) as P.
  unfold tokens_in_window in Ht. lia.
Qed.

(** The theorem on a document of 100000 estimated tokens at the default
    limit of 90000. *)
Lemma acquire_never_admits_witness :
  exists s' w, acquire_body (init 60 90000 60) 0 100000 = Wait s' w.
Proof.
  apply (acquire_never_admits (init 60 90000 60) 0 100000).
  right. split; [constructor|reflexivity].
Defined.

Lemma within_budget_step (s : t) (now est : Z) :
  0 <= est -> within_budget s ->
  within_budget (ledger_after (acquire_body s now est)).
Proof.
  unfold within_budget. intros He (Hr & Ht & Hn).
  pose proof (prune_tokens_nonneg (cutoff s now) _ Hn) as Hn'.
  pose proof (prune_tokens_sum_le (cutoff s now) _ Hn) as Hsum.
  pose proof (prune_requests_length (cutoff s now) (requests s)) as Hlen.
  destruct (ledger_after_acquire_body s now est)
    as ([(Er & Et) | (Er & Et & Cr & Ct)] & -> & -> & _);
    rewrite Er, Et; unfold requests_in_window, tokens_in_window in *.
  - repeat split; [lia|lia|assumption].
  - rewrite List.length_app, sum_tokens_app. simpl.
    rewrite (sum_tokens_cons (now, est) []). unfold sum_tokens at 2, py_sum. simpl.
    repeat split; [lia|lia|].
    apply List.Forall_app. split; [assumption|]. constructor; [simpl; lia|constructor].
Qed.

Lemma within_budget_calls (calls : list (Z * Z)) (s : t) :
  Forall (fun c => 0 <= snd c) calls ->
  within_budget s ->
  Forall (fun c => match c with
                   | (s0, _, _, d) => within_budget s0 /\ within_budget (ledger_after d)
                   end)
         (acquire_calls s calls).
Proof.
  revert s. induction calls as [|[now est] rest IH]; intros s Hc H; simpl.
  - constructor.
  - inversion Hc as [|? ? He Hc']; subst. simpl in He.
    pose proof (within_budget_step s now est He H) as H'.
    constructor; [split; assumption|].
    destruct (acquire_body s now est) as [s'|s' w]; [apply IH; assumption|constructor].
Qed.

(** A ledger within budget is within budget in every window: at any clock
    reading, the in-window requests and tokens are within the limits. *)
Lemma within_budget_in_window (s : t) (now : Z) :
  within_budget s ->
  Z.of_nat (List.length (requests_in_window s now)) <= max_requests s /\
  tokens_in_window s now <= max_tokens s.
Proof.
  intros (Hr & Ht & Hn). unfold requests_in_window, tokens_in_window.
  pose proof (prune_requests_length (cutoff s now) (requests s)).
  pose proof (prune_tokens_sum_le (cutoff s now) _ Hn).
  lia.
Qed.

(** X6.  On a limiter created with limits that are not negative and called
    with estimates that are not negative, the ledger is within budget at
    every point, not only when a call is admitted: before and after every
    call, waiting or admitted, and for every clock reading, neither the
    count of in-window requests exceeds [max_requests] nor the sum of
    in-window tokens [max_tokens]. *)
Theorem acquire_ledger_always_within_budget
    (max_requests0 max_tokens0 window_seconds0 : Z) (calls : list (Z * Z)) :
  0 <= max_requests0 -> 0 <= max_tokens0 ->
  Forall (fun c => 0 <= snd c) calls ->
  Forall (fun c => match c with
                   | (s0, _, _, d) =>
                       forall clock,
                         Z.of_nat (List.length (requests_in_window s0 clock))
                         <= max_requests0
                         /\ tokens_in_window s0 clock <= max_tokens0
                         /\ Z.of_nat (List.length
                                        (requests_in_window (ledger_after d) clock))
                            <= max_requests0
                         /\ tokens_in_window (ledger_after d) clock <= max_tokens0
                   end)
         (acquire_calls (init max_requests0 max_tokens0 window_seconds0) calls).
Proof.
  intros Hr Ht Hc.
  assert (Hinit : within_budget (init max_requests0 max_tokens0 window_seconds0)).
  { unfold within_budget, init, sum_tokens, py_sum. simpl. repeat split; try lia. constructor. }
  assert (G : forall calls s,
    max_requests s = max_requests0 -> max_tokens s = max_tokens0 ->
    Forall (fun c => 0 <= snd c) calls -> within_budget s ->
    Forall (fun c => match c with
                     | (s0, _, _, d) =>
                         forall clock,
                           Z.of_nat (List.length (requests_in_window s0 clock))
                           <= max_requests0
                           /\ tokens_in_window s0 clock <= max_tokens0
                           /\ Z.of_nat (List.length
                                          (requests_in_window (ledger_after d) clock))
                              <= max_requests0
                           /\ tokens_in_window (ledger_after d) clock <= max_tokens0
                     end)
           (acquire_calls s calls)).
  { clear. intros calls. induction calls as [|[now est] rest IH];
      intros s E1 E2 Hc H; simpl; [constructor|].
    inversion Hc as [|? ? He Hc']; subst. simpl in He.
    pose proof (within_budget_step s now est He H) as H'.
    destruct (ledger_after_acquire_body s now est) as (_ & F1 & F2 & _).
    constructor.
    - intros clock.
      destruct (within_budget_in_window s clock H) as [A1 A2].
      destruct (within_budget_in_window _ clock H') as [B1 B2].
      rewrite F1 in B1. rewrite F2 in B2. repeat split; assumption.
    - destruct (acquire_body s now est) as [s'|s' w]; [|constructor].
      simpl in *. apply IH; try assumption; congruence. }
  apply G; [reflexivity|reflexivity|exact Hc|exact Hinit].
Qed.

(** The theorem on three calls one second apart. *)
Lemma acquire_ledger_always_within_budget_witness :
  Forall (fun c => match c with
                   | (s0, _, _, d) =>
                       forall clock,
                         Z.of_nat (List.length (requests_in_window s0 clock)) <= 2
                         /\ tokens_in_window s0 clock <= 1000
                         /\ Z.of_nat (List.length
                                        (requests_in_window (ledger_after d) clock))
                            <= 2
                         /\ tokens_in_window (ledger_after d) clock <= 1000
                   end)
         (acquire_calls (init 2 1000 60) [(0, 400); (1000000, 400); (2000000, 100)]).
Proof.
  apply (acquire_ledger_always_within_budget 2 1000 60
           [(0, 400); (1000000, 400); (2000000, 100)]); [lia|lia|].
  repeat (constructor; [simpl; lia|]). constructor.
Defined.

End LedgerInvariants.

(** ** What a call of [complete_chat] ends with *)

Section RetryOutcomeFacts.

Import Retry RetryOutcome.

Local Ltac attempt_cases k :=
  let H := fresh in
  assert (H : k = 1%nat \/ k = 2%nat \/ k = 3%nat) by lia;
  destruct H as [-> | [-> | ->]].

Local Ltac use_retried Hprev :=
  try (pose proof (Hprev 1%nat ltac:(lia)) as (? & ? & ?));
  try (pose proof (Hprev 2%nat ltac:(lia)) as (? & ? & ?));
  congruence.

Local Ltac give_retried :=
  let j := fresh "j" in
  let Hj := fresh "Hj" in
  let H := fresh in
  intros j Hj;
  assert (H : j = 1%nat \/ j = 2%nat) by lia;
  destruct H as [-> | ->]; try (exfalso; lia);
  eexists; split; eassumption.

Local Ltac established :=
  repeat match goal with |- _ /\ _ => split end;
  try reflexivity; try lia; try eassumption;
  try (intros ? ?; exfalso; lia); try give_retried.

Local Ltac forward H :=
  try discriminate H; injection H as <-;
  first [ solve [established]
        | exists 1%nat; solve [established]
        | exists 2%nat; solve [established]
        | exists 3%nat; solve [established] ].

Local Ltac backward H :=
  first [ destruct H as (k & Hk & Hop & Hr & Hprev);
          attempt_cases k; use_retried Hprev
        | destruct H as (k & Hk & Hop & Hprev);
          attempt_cases k; use_retried Hprev
        | destruct H as (Hop & Hr & Hprev); use_retried Hprev ].

(** X7.  A call of [complete_chat] returns the content of the first attempt
    that succeeds, if it is one of the first three and every attempt before
    it failed with a [TimeoutError] or a [ConnectionError]; it lets the
    first exception of another kind through at once, without a further
    attempt; and after three failures of the retried kinds it raises
    tenacity's [RetryError], not the last exception itself. *)
Theorem complete_chat_result (operation : nat -> attempt_result) :
  (forall c,
     snd (complete_chat operation) = Some (Returned c) <->
     exists k, (1 <= k <= 3)%nat /\ operation k = Success c
               /\ retried_until operation k) /\
  (forall e,
     snd (complete_chat operation) = Some (Reraised e) <->
     exists k, (1 <= k <= 3)%nat /\ operation k = Failure e
               /\ retry_if_timeout_or_connection e = false
               /\ retried_until operation k) /\
  (forall e,
     snd (complete_chat operation) = Some (RetryError e) <->
     operation 3%nat = Failure e
     /\ retry_if_timeout_or_connection e = true
     /\ retried_until operation 3).
Proof.
  unfold complete_chat, retried_until, fails_retryably. simpl.
  destruct (operation 1%nat) as [c1|e1] eqn:E1;
    [|destruct (retry_if_timeout_or_connection e1) eqn:R1;
      [destruct (operation 2%nat) as [c2|e2] eqn:E2;
       [|destruct (retry_if_timeout_or_connection e2) eqn:R2;
         [destruct (operation 3%nat) as [c3|e3] eqn:E3;
          [|destruct (retry_if_timeout_or_connection e3) eqn:R3]|]]|]];
    simpl; (split; [|split]); intros x; (split; intros H);
    first [forward H | backward H].
Qed.

(** X8.  The backoff of one call of [complete_chat] is two seconds for
    every attempt after the first: there is one sleep between consecutive
    attempts, and the sleeps add up to at most four seconds. *)
Theorem complete_chat_backoff_total (operation : nat -> attempt_result) :
  let evs := fst (complete_chat operation) in
  S (List.length (sleeps evs)) = List.length (attempts evs) /\
  py_sum (sleeps evs) = 2 * Z.of_nat (List.length (sleeps evs)) /\
  0 <= py_sum (sleeps evs) <= 4.
Proof.
  cbv zeta.
  destruct (complete_chat_traces operation) as [-> | [[-> _] | [-> _]]];
    unfold py_sum; simpl; repeat split; lia.
Qed.

End RetryOutcomeFacts.

(** ** The response cleanup, further *)

Section CleanupMore.

Import PyStr Extraction.
Local Open Scope string_scope.

Lemma prefix_trans (q a b : string) :
  String.prefix q a = true -> String.prefix a b = true -> String.prefix q b = true.
Proof.
  revert a b. induction q as [|x q IH]; intros a b Hqa Hab; [apply prefix_nil|].
  destruct a as [|y a]; [discriminate Hqa|].
  destruct b as [|z b]; [discriminate Hab|].
  rewrite prefix_cons in *.
  apply andb_true_iff in Hqa. destruct Hqa as [H1 H2].
  apply andb_true_iff in Hab. destruct Hab as [H3 H4].
  apply Ascii.eqb_eq in H1, H3. subst.
  rewrite Ascii.eqb_refl. simpl. apply (IH a b); assumption.
Qed.

Lemma prefix_refl (s : string) : String.prefix s s = true.
Proof.
  induction s as [|c s IH]; [reflexivity|].
  rewrite prefix_cons, Ascii.eqb_refl. exact IH.
Qed.

(** An occurrence in a prefix of a text is an occurrence in the text. *)
Lemma contains_prefix (sep p s : string) :
  String.prefix p s = true -> contains sep p = true -> contains sep s = true.
Proof.
  revert s. induction p as [|a p IH]; intros s Hp Hc; [discriminate Hc|].
  destruct s as [|b s]; [discriminate Hp|].
  pose proof Hp as Hp'. rewrite prefix_cons in Hp'.
  apply andb_true_iff in Hp'. destruct Hp' as [Hab Hps].
  rewrite contains_cons in *. apply orb_true_iff in Hc. destruct Hc as [Hc|Hc].
  - rewrite (prefix_trans _ _ _ Hc Hp). reflexivity.
  - rewrite (IH s Hps Hc). apply orb_true_r.
Qed.

Lemma prefix_rstrip_self (s : string) : String.prefix (rstrip s) s = true.
Proof.
  induction s as [|a s IH]; [reflexivity|]. simpl rstrip.
  destruct (rstrip s) as [|r0 r].
  - destruct (isspace a); [apply prefix_nil|].
    rewrite prefix_cons, Ascii.eqb_refl. apply prefix_nil.
  - rewrite prefix_cons, Ascii.eqb_refl. exact IH.
Qed.

Lemma contains_lstrip (sep s : string) :
  contains sep (lstrip s) = true -> contains sep s = true.
Proof.
  induction s as [|a s IH]; [trivial|].
  rewrite lstrip_cons. destruct (isspace a); [|trivial].
  intros H. rewrite contains_cons, (IH H). apply orb_true_r.
Qed.

Lemma contains_strip (sep s : string) :
  contains sep (strip s) = true -> contains sep s = true.
Proof.
  unfold strip. intros H. apply contains_lstrip.
  apply (contains_prefix sep _ _ (prefix_rstrip_self (lstrip s)) H).
Qed.

Lemma contains_drop (sep : string) (n : nat) (s : string) :
  contains sep (drop n s) = true -> contains sep s = true.
Proof.
  revert s. induction n as [|n IH]; intros s; [trivial|].
  destruct s as [|a s]; [trivial|]. simpl drop.
  intros H. rewrite contains_cons, (IH s H). apply orb_true_r.
Qed.

(** The piece [split] reads first is a prefix of the text and holds no
    separator. *)
Lemma split_go_first_prefix (s : string) :
  String.prefix (fst (split_go fence 0 s)) s = true.
Proof.
  induction s as [|c s IH]; [reflexivity|].
  rewrite split_go_cons0. destruct (String.prefix fence (String c s)).
  - apply prefix_nil.
  - destruct (split_go fence 0 s) as [p ps]. cbn [fst] in *.
    rewrite prefix_cons, Ascii.eqb_refl. exact IH.
Qed.

Lemma split_go_first_no_fence (s : string) :
  contains fence (fst (split_go fence 0 s)) = false.
Proof.
  induction s as [|c s IH]; [reflexivity|].
  rewrite split_go_cons0. destruct (String.prefix fence (String c s)) eqn:E.
  - reflexivity.
  - pose proof (split_go_first_prefix s) as P.
    destruct (split_go fence 0 s) as [p ps]. cbn [fst] in *.
    rewrite contains_cons, IH, orb_false_r.
    destruct (String.prefix fence (String c p)) eqn:F; [|reflexivity].
    assert (Q : String.prefix (String c p) (String c s) = true)
      by (rewrite prefix_cons, Ascii.eqb_refl; exact P).
    rewrite (prefix_trans _ _ _ F Q) in E. discriminate E.
Qed.

(** Whatever [cleanup] returns holds no marker at its start, and none at
    all when the text started with one. *)
Lemma cleanup_output (x : string) :
  startswith (cleanup x) fence = false /\ strip (cleanup x) = cleanup x.
Proof.
  unfold cleanup. destruct (startswith (strip x) fence) eqn:E.
  - destruct (startswith_fence_inv _ E) as [r Hr]. rewrite Hr, split_fence_app.
    unfold split. pose proof (split_go_first_no_fence r) as N.
    destruct (split_go fence 0 r) as [p ps]. simpl in N.
    set (q := if startswith p "json" then drop 4 p else p).
    assert (Nq : contains fence q = false).
    { subst q. destruct (startswith p "json"); [|exact N].
      destruct (contains fence (drop 4 p)) eqn:D; [|reflexivity].
      rewrite (contains_drop _ _ _ D) in N. discriminate N. }
    split; [|apply strip_idem].
    destruct (startswith (strip q) fence) eqn:S; [|reflexivity].
    unfold startswith in S. apply prefix_strip_contains in S; [|discriminate].
    congruence.
  - split; [|apply strip_idem]. rewrite strip_idem. exact E.
Qed.

(** X9.  The cleanup is idempotent, and its result has no white space at
    either end: cleaning a cleaned response changes nothing. *)
Theorem cleanup_idempotent (json_response : string) :
  cleanup (cleanup json_response) = cleanup json_response /\
  strip (cleanup json_response) = cleanup json_response.
Proof.
  destruct (cleanup_output json_response) as [Hs Hstrip].
  split; [|exact Hstrip].
  unfold cleanup at 1. rewrite Hstrip, Hs. exact Hstrip.
Qed.

Lemma rstrip_cons (c : ascii) (s : string) :
  rstrip (String c s) =
  match rstrip s with
  | "" => if isspace c then "" else String c ""
  | r => String c r
  end.
Proof. reflexivity. Qed.

(** [rstrip] stops at a text it leaves alone: only what follows is cut. *)
Lemma rstrip_app_keep (a b : string) :
  rstrip a = a -> a <> "" -> rstrip (a ++ b) = a ++ rstrip b.
Proof.
  induction a as [|x a IH]; intros Ha Hne; [contradiction|].
  destruct a as [|y a].
  - simpl in *. destruct (isspace x); [discriminate Ha|].
    destruct (rstrip b); reflexivity.
  - assert (Ha' : rstrip (String y a) = String y a).
    { rewrite rstrip_cons in Ha. destruct (rstrip (String y a)) as [|r0 r].
      - destruct (isspace x); discriminate Ha.
      - congruence. }
    change (String x (String y a) ++ b) with (String x (String y a ++ b)).
    rewrite rstrip_cons, (IH Ha') by discriminate.
    change (String x (String y a) ++ rstrip b)
      with (String x (String y a ++ rstrip b)).
    change (String y a ++ rstrip b) with (String y (a ++ rstrip b)).
    reflexivity.
Qed.

Lemma rstrip_fenced (tag content : string) :
  rstrip (fenced tag content) = fenced tag content.
Proof.
  pose proof (strip_fenced tag content) as H. unfold strip in H.
  replace (lstrip (fenced tag content)) with (fenced tag content) in H
    by reflexivity.
  exact H.
Qed.

(** The content is the piece before the closing marker, whatever follows
    the marker. *)
Lemma split_go_content_then (content rest : string) :
  contains fence content = false ->
  fst (split_go fence 0 (content ++ String "010" (fence ++ rest)))
  = content ++ String "010" "".
Proof.
  induction content as [|a u IH]; intros H.
  - simpl append. rewrite split_go_other_head by reflexivity.
    change (String "`" (String "`" (String "`" rest))) with (fence ++ rest).
    pose proof (split_fence_app rest) as S. unfold split in S.
    destruct (split_go fence 0 (fence ++ rest)) as [p ps].
    destruct (split_go fence 0 rest) as [p' ps'].
    injection S as -> _. reflexivity.
  - rewrite contains_cons in H. apply orb_false_iff in H. destruct H as [H1 H2].
    specialize (IH H2).
    pose proof (prefix_fence_app_newline (String a u) (fence ++ rest) H1) as N.
    set (tl := String "010" (fence ++ rest)) in *.
    change (String a u ++ tl) with (String a (u ++ tl)) in *.
    rewrite split_go_cons0, N.
    destruct (split_go fence 0 (u ++ tl)) as [p ps].
    cbn [fst] in *. rewrite IH. reflexivity.
Qed.

(** X10.  Whatever follows the closing marker of a [json] block is
    dropped: for a content without the marker, the cleanup of the block
    followed by any text is the stripped content. *)
Theorem cleanup_drops_text_after_block (content trailing : string) :
  contains fence content = false ->
  cleanup (fenced "json" content ++ trailing) = strip content.
Proof.
  intros H. unfold cleanup.
  assert (S : strip (fenced "json" content ++ trailing)
              = fence ++ "json" ++ String "010"
                  (content ++ String "010" (fence ++ rstrip trailing))).
  { unfold strip.
    replace (lstrip (fenced "json" content ++ trailing))
      with (fenced "json" content ++ trailing) by reflexivity.
    rewrite rstrip_app_keep; [|apply rstrip_fenced|discriminate].
    unfold fenced. rewrite !append_assoc. simpl. rewrite !append_assoc.
    reflexivity. }
  rewrite S, startswith_fence_app, split_fence_app.
  unfold split. simpl append.
  rewrite !split_go_other_head by reflexivity.
  pose proof (split_go_content_then content (rstrip trailing) H) as P.
  simpl append in P.
  destruct (split_go fence 0 _) as [p ps]. simpl in P. subst p.
  unfold startswith. simpl append. rewrite !prefix_cons, prefix_nil. simpl.
  apply strip_between_newlines.
Qed.

(** The theorem on a block followed by a remark. *)
Lemma cleanup_drops_text_after_block_witness :
  cleanup (fenced "json" "{}" ++ " Fatto.") = "{}".
Proof.
  exact (cleanup_drops_text_after_block "{}" " Fatto." eq_refl).
Defined.

(** X11.  A fenced block is unwrapped only when the response starts with
    it: a response that starts with any other visible character is only
    stripped, and a block inside it keeps its markers and its tag. *)
Theorem cleanup_keeps_block_after_prose (c : ascii) (prose tag content : string) :
  isspace c = false -> Ascii.eqb "`" c = false ->
  cleanup (String c prose ++ fenced tag content)
  = String c prose ++ fenced tag content.
Proof.
  intros Hs Hb.
  assert (S : strip (String c prose ++ fenced tag content)
              = String c prose ++ fenced tag content).
  { unfold strip. simpl append. rewrite lstrip_cons, Hs.
    change (String c (prose ++ fenced tag content))
      with (String c prose ++ fenced tag content).
    unfold fenced.
    replace (String c prose ++ fence ++ tag ++ String "010" (content ++ String "010" fence))
      with ((String c prose ++ fence ++ tag ++ String "010" (content ++ String "010" ""))
            ++ fence).
    - apply rstrip_app_fixed; [reflexivity|discriminate].
    - rewrite !append_assoc. simpl. rewrite !append_assoc. reflexivity. }
  unfold cleanup. rewrite S.
  replace (startswith (String c prose ++ fenced tag content) fence) with false.
  - exact S.
  - unfold startswith, fence. simpl append. rewrite prefix_cons, Hb. reflexivity.
Qed.

(** The theorem on a block announced by a sentence. *)
Lemma cleanup_keeps_block_after_prose_witness :
  cleanup ("Ecco: " ++ fenced "json" "{}") = "Ecco: " ++ fenced "json" "{}".
Proof.
  exact (cleanup_keeps_block_after_prose "E" "cco: " "json" "{}" eq_refl eq_refl).
Defined.

End CleanupMore.

(** ** The VAT validator, further *)

Section VatMore.

Import PyStr Vat.
Local Open Scope string_scope.

Lemma replace_app (old : ascii) (new a b : string) :
  replace old new (a ++ b) = replace old new a ++ replace old new b.
Proof.
  induction a as [|c a IH]; [reflexivity|]. simpl.
  destruct (Ascii.eqb c old); rewrite IH; [|reflexivity].
  symmetry. apply append_assoc.
Qed.

Lemma cleaned_app (a b : string) : cleaned (a ++ b) = cleaned a ++ cleaned b.
Proof. unfold cleaned. rewrite !replace_app. reflexivity. Qed.

Lemma replace_length (old : ascii) (s : string) :
  (String.length (replace old "" s) <= String.length s)%nat.
Proof.
  induction s as [|c s IH]; simpl; [lia|].
  destruct (Ascii.eqb c old); simpl; lia.
Qed.

(** X12.  The validator ignores separators wherever they stand: a space or
    a period inserted anywhere in a value changes neither the verdict nor
    the value returned, two inputs with the same digits between their
    separators validate alike, and an accepted value is returned in its
    canonical form, which cleaning leaves unchanged and which is no longer
    than the input. *)
Theorem validate_italian_vat_ignores_separators :
  (forall a b, cleaned (a ++ String " " b) = cleaned (a ++ b)) /\
  (forall a b, cleaned (a ++ String "." b) = cleaned (a ++ b)) /\
  (forall a b c,
     validate_italian_vat (a ++ b) = inl c ->
     validate_italian_vat (a ++ String " " b) = inl c
     /\ validate_italian_vat (a ++ String "." b) = inl c) /\
  (forall v w c,
     cleaned v = cleaned w ->
     validate_italian_vat v = inl c -> validate_italian_vat w = inl c) /\
  (forall v c,
     validate_italian_vat v = inl c ->
     cleaned c = c /\ String.length c = 11%nat
     /\ (String.length c <= String.length v)%nat).
Proof.
  assert (Sp : forall a b, cleaned (a ++ String " " b) = cleaned (a ++ b)).
  { intros a b. rewrite !cleaned_app. reflexivity. }
  assert (Pe : forall a b, cleaned (a ++ String "." b) = cleaned (a ++ b)).
  { intros a b. rewrite !cleaned_app. reflexivity. }
  assert (Same : forall v w c, cleaned v = cleaned w ->
            validate_italian_vat v = inl c -> validate_italian_vat w = inl c).
  { intros v w c E H. apply validate_italian_vat_ok in H.
    apply validate_italian_vat_ok. rewrite <- E. exact H. }
  split; [exact Sp|]. split; [exact Pe|]. split; [|split; [exact Same|]].
  - intros a b c H. split; (eapply Same; [|exact H]); symmetry; [apply Sp|apply Pe].
  - intros v c H. apply validate_italian_vat_ok in H. destruct H as [-> [Hl Hd]].
    split; [apply cleaned_digits, Hd|]. split; [exact Hl|].
    unfold cleaned.
    pose proof (replace_length "." (replace " " "" v)).
    pose proof (replace_length " " v). lia.
Qed.

End VatMore.

(** ** The batch processor, further *)

Section BatchMore.

Import Batch.
Context {InvoiceData : Type}.
Variable extract_invoice_data : nat -> string -> extraction InvoiceData.

Lemma extracted_from_incl (k : nat) (l : list (string * string)) (x : string) :
  In x (List.map fst (extracted_from extract_invoice_data k l)) ->
  In x (List.map fst l).
Proof.
  revert k. induction l as [|d l IH]; intros k; simpl; [tauto|].
  destruct (succeeds extract_invoice_data k d); simpl.
  - intros [H|H]; [left; exact H|right; exact (IH _ H)].
  - intros H. right. exact (IH _ H).
Qed.

Lemma extracted_from_NoDup (k : nat) (l : list (string * string)) :
  List.NoDup (List.map fst l) ->
  List.NoDup (List.map fst (extracted_from extract_invoice_data k l)).
Proof.
  revert k. induction l as [|d l IH]; intros k; simpl; intros H; [constructor|].
  inversion H as [|? ? Hnot Hnd]; subst.
  destruct (succeeds extract_invoice_data k d); simpl; [|apply IH, Hnd].
  constructor; [|apply IH, Hnd].
  intros Hin. apply Hnot. eapply extracted_from_incl, Hin.
Qed.

(** X13.  Whenever the batch returns, every identifier of the result is an
    identifier of the batch, and when the caller's identifiers are distinct
    so are those of the result: no identifier is returned twice. *)
Theorem batch_identifiers_distinct
    (documents : list (string * string)) (max_concurrent : Z)
    (result : list (string * InvoiceData)) :
  batch_process_documents extract_invoice_data documents max_concurrent
  = Returns result ->
  (forall doc_id,
     In doc_id (List.map fst result) -> In doc_id (List.map fst documents)) /\
  (List.NoDup (List.map fst documents) -> List.NoDup (List.map fst result)).
Proof.
  intros H. apply batch_returns in H. destruct H as (-> & _ & _).
  rewrite contributions_ids. split.
  - intros doc_id. apply extracted_from_incl.
  - apply extracted_from_NoDup.
Qed.

End BatchMore.

Section BatchMoreExamples.

Import Batch.
Local Open Scope string_scope.

(** The theorem on a batch of three documents of which the second fails. *)
Lemma batch_identifiers_distinct_witness :
  List.NoDup (List.map fst [("doc_0", "ok"); ("doc_2", "ok")]).
Proof.
  refine (proj2 (batch_identifiers_distinct
           (fun (i : nat) (text : string) =>
              if String.eqb text "bad" then Raised "boom" else Extracted text)
           [("doc_0", "ok"); ("doc_1", "bad"); ("doc_2", "ok")] 5
           [("doc_0", "ok"); ("doc_2", "ok")] eq_refl) _).
  simpl. repeat constructor; simpl; intuition discriminate.
Defined.

End BatchMoreExamples.

(** ** The batch under its semaphore *)

Section BatchScheduleFacts.

Import Batch BatchSchedule.
Context {InvoiceData : Type}.
Variable extract_invoice_data : nat -> string -> extraction InvoiceData.
Variable documents : list (string * string).

(** Replacing the entry [y] at an index by [x] moves one unit of a count
    from [y]'s side to [x]'s. *)
Lemma count_insert (f : status -> bool) (l : list (@status InvoiceData))
    (i : nat) (x y : status) :
  l !! i = Some y ->
  (count f (<[i := x]> l) + (if f y then 1 else 0)
   = count f l + (if f x then 1 else 0))%nat.
Proof.
  unfold count. revert i. induction l as [|z l IH]; intros i H; [discriminate H|].
  destruct i as [|i]; simpl in *.
  - injection H as ->. destruct (f x), (f y); simpl; lia.
  - specialize (IH i H). destruct (f z); simpl; lia.
Qed.

(** A positive count has an entry behind it. *)
Lemma count_pos (f : status -> bool) (l : list (@status InvoiceData)) :
  (0 < count f l)%nat -> exists i s, l !! i = Some s /\ f s = true.
Proof.
  unfold count. induction l as [|z l IH]; simpl; [lia|].
  destruct (f z) eqn:E.
  - intros _. exists 0%nat, z. split; [reflexivity|exact E].
  - intros H. destruct (IH H) as (i & s & Hi & Hs). exists (S i), s.
    split; assumption.
Qed.

Lemma all_pending_lookup (l : list (string * string)) (i : nat)
    (s : @status InvoiceData) :
  List.map (fun _ => Pending) l !! i = Some s -> s = Pending.
Proof.
  revert i. induction l as [|d l IH]; intros i H; [discriminate H|].
  destruct i as [|i]; simpl in H; [congruence|exact (IH i H)].
Qed.

Lemma schedule_invariant_start (max_concurrent : Z) (st0 : state) :
  start documents max_concurrent = Some st0 ->
  schedule_invariant extract_invoice_data documents max_concurrent st0
  /\ work_left st0 = (2 * List.length documents)%nat.
Proof.
  unfold start. destruct (max_concurrent <? 0) eqn:E; [discriminate|].
  intros H. injection H as <-. apply Z.ltb_ge in E.
  unfold schedule_invariant, work_left, running, pending, count. simpl.
  assert (C : forall l : list (string * string),
            List.filter is_running (List.map (fun _ => @Pending InvoiceData) l) = []
            /\ List.length (List.filter is_pending
                              (List.map (fun _ => @Pending InvoiceData) l))
               = List.length l).
  { induction l as [|d l (I1 & I2)]; simpl.
    - split; reflexivity.
    - split; [exact I1|lia]. }
  destruct (C documents) as (C1 & C2). rewrite C1, C2. simpl.
  split; [|lia]. split; [lia|]. split; [lia|]. split; [apply List.length_map|].
  intros i d s _ Hs. apply all_pending_lookup in Hs. subst s. exact I.
Qed.

Lemma schedule_invariant_step (max_concurrent : Z) (st st' : state) :
  schedule_invariant extract_invoice_data documents max_concurrent st ->
  step extract_invoice_data documents st st' ->
  schedule_invariant extract_invoice_data documents max_concurrent st'
  /\ (work_left st' < work_left st)%nat.
Proof.
  intros (Hv & Hpos & Hlen & Hres) Hstep.
  unfold schedule_invariant, work_left, running, pending in *.
  destruct Hstep as [st i Hi Hval | st i d r Hi Hd Hp]; simpl.
  - pose proof (count_insert is_running _ i Running Pending Hi) as R.
    pose proof (count_insert is_pending _ i Running Pending Hi) as P.
    simpl in R, P.
    split; [|lia]. split; [lia|]. split; [lia|].
    split; [rewrite length_insert; exact Hlen|].
    intros j x y Hx Hy. apply list_lookup_insert_Some in Hy.
    destruct Hy as [(-> & <- & _) | (_ & Hy)]; [exact I|].
    apply (Hres j); assumption.
  - pose proof (count_insert is_running _ i (Finished r) Running Hi) as R.
    pose proof (count_insert is_pending _ i (Finished r) Running Hi) as P.
    simpl in R, P.
    split; [|lia]. split; [lia|]. split; [lia|].
    split; [rewrite length_insert; exact Hlen|].
    intros j x y Hx Hy. apply list_lookup_insert_Some in Hy.
    destruct Hy as [(-> & <- & _) | (_ & Hy)]; [|apply (Hres j); assumption].
    simpl. congruence.
Qed.

Lemma schedule_invariant_reachable (max_concurrent : Z) (st0 st : state) :
  start documents max_concurrent = Some st0 ->
  rtc (step extract_invoice_data documents) st0 st ->
  schedule_invariant extract_invoice_data documents max_concurrent st
  /\ (work_left st <= 2 * List.length documents)%nat.
Proof.
  intros H0 Hr. destruct (schedule_invariant_start _ _ H0) as [I0 W0].
  rewrite <- W0. clear H0 W0.
  induction Hr as [st|st st1 st2 Hs _ IH]; [split; [exact I0|lia]|].
  destruct (schedule_invariant_step _ _ _ I0 Hs) as [I1 W1].
  destruct (IH I1) as [I2 W2]. split; [exact I2|lia].
Qed.

(** X14.  At no point of a batch are more than [max_concurrent] tasks
    inside the semaphore's block: in every state the tasks can reach, the
    running tasks and the counter of the semaphore add up to
    [max_concurrent], and the counter is not negative. *)
Theorem batch_concurrency_bounded (max_concurrent : Z) (st0 st : state) :
  start documents max_concurrent = Some st0 ->
  rtc (step extract_invoice_data documents) st0 st ->
  Z.of_nat (running st) <= max_concurrent /\
  Z.of_nat (running st) + value st = max_concurrent /\
  0 <= value st /\
  List.length (tasks st) = List.length documents.
Proof.
  intros H0 Hr.
  destruct (schedule_invariant_reachable _ _ _ H0 Hr) as [(Hv & Hpos & Hlen & _) _].
  repeat split; lia.
Qed.

Lemma results_of_finished (k : nat) (l : list (string * string))
    (ts : list status) :
  List.length ts = List.length l ->
  (forall i d s, l !! i = Some d -> ts !! i = Some s ->
                 holds_result extract_invoice_data (k + i) d s) ->
  Forall (fun s => is_finished s = true) ts ->
  gather_from extract_invoice_data k l
  = Some (flat_map (fun s => match s with Finished r => [r] | _ => [] end) ts).
Proof.
  revert k ts. induction l as [|d l IH]; intros k [|s ts] Hlen Hres Hf;
    simpl in Hlen; try discriminate Hlen; [reflexivity|].
  inversion Hf as [|? ? Hs Hf']; subst.
  destruct s as [| |r]; try discriminate Hs.
  pose proof (Hres 0%nat d (Finished r) eq_refl eq_refl) as H0.
  rewrite Nat.add_0_r in H0. simpl in H0. simpl. rewrite H0.
  rewrite (IH (S k) ts); [reflexivity|lia| |exact Hf'].
  intros i d' s Hd Hs'. specialize (Hres (S i) d' s Hd Hs').
  rewrite Nat.add_succ_r in Hres. exact Hres.
Qed.

(** With a bound of zero a batch that is not empty stays where it starts. *)
Lemma zero_bound_stuck (st0 st : state) :
  documents <> [] ->
  start documents 0 = Some st0 ->
  rtc (step extract_invoice_data documents) st0 st ->
  st = st0 /\ ~ all_finished st /\
  (forall st', ~ step extract_invoice_data documents st st').
Proof.
  intros Hne H0 Hr.
  assert (Hstart : st0 = mk_state 0 (List.map (fun _ => Pending) documents))
    by (unfold start in H0; simpl in H0; congruence).
  assert (Hno : forall st', ~ step extract_invoice_data documents st0 st').
  { intros st' Hs. subst st0.
    inversion Hs as [? i Hi Hval | ? i d r Hi Hd Hp]; subst; simpl in *.
    - lia.
    - apply all_pending_lookup in Hi. discriminate Hi. }
  assert (Hst : st = st0).
  { destruct (rtc_inv _ _ Hr) as [E | (y & Hs & _)]; [symmetry; exact E|].
    exfalso. exact (Hno y Hs). }
  subst st. split; [reflexivity|]. split; [|exact Hno].
  subst st0. unfold all_finished. simpl.
  destruct documents as [|d l]; [contradiction|]. simpl.
  intros Hf. inversion Hf as [|? ? Hs _]. discriminate Hs.
Qed.

(** Once every task has finished, the gathered results are those of
    [process_one] and the call returns the successes among them. *)
Lemma finished_outcome (max_concurrent : Z) (st0 st : state) :
  start documents max_concurrent = Some st0 ->
  rtc (step extract_invoice_data documents) st0 st ->
  all_finished st ->
  gather_results extract_invoice_data documents = Some (results st) /\
  batch_process_documents extract_invoice_data documents max_concurrent
  = Returns (successful (results st)).
Proof.
  intros H0 Hr Hf.
  destruct (schedule_invariant_reachable _ _ _ H0 Hr) as [(_ & _ & Hlen & Hres) _].
  assert (E : gather_results extract_invoice_data documents = Some (results st))
    by (apply (results_of_finished 0); assumption).
  split; [exact E|]. unfold batch_process_documents.
  assert (Hmc : 0 <= max_concurrent).
  { unfold start in H0. destruct (max_concurrent <? 0) eqn:E0; [discriminate H0|].
    apply Z.ltb_ge, E0. }
  replace (max_concurrent <? 0) with false by (symmetry; apply Z.ltb_ge; exact Hmc).
  destruct documents as [|d l] eqn:Hdocs.
  - unfold results. destruct (tasks st); [reflexivity|discriminate Hlen].
  - destruct (max_concurrent =? 0) eqn:E1; [|rewrite E; reflexivity].
    exfalso. apply Z.eqb_eq in E1. subst max_concurrent.
    rewrite <- Hdocs in *.
    assert (Hne : documents <> []) by (rewrite Hdocs; discriminate).
    destruct (zero_bound_stuck _ _ Hne H0 Hr) as (_ & Hnf & _).
    exact (Hnf Hf).
Qed.

(** X15.  The result of a batch does not depend on the order in which the
    tasks run: whenever every task has finished, the gathered results are
    those of [process_one] on the documents, in the order of the documents,
    and the successes among them are what [batch_process_documents]
    returns. *)
Theorem batch_result_schedule_independent (max_concurrent : Z) (st0 st : state) :
  start documents max_concurrent = Some st0 ->
  rtc (step extract_invoice_data documents) st0 st ->
  all_finished st ->
  gather_results extract_invoice_data documents = Some (results st) /\
  batch_process_documents extract_invoice_data documents max_concurrent
  = Returns (successful (results st)).
Proof. apply finished_outcome. Qed.

Lemma work_done (st : @state InvoiceData) : work_left st = 0%nat -> all_finished st.
Proof.
  unfold work_left, pending, running, count, all_finished. intros H.
  induction (tasks st) as [|s ts IH]; [constructor|].
  destruct s as [| |r]; simpl in H; try lia.
  constructor; [reflexivity|apply IH; exact H].
Qed.

(** With a bound of at least one, and every extraction coming to an end,
    some task can move as long as there is work left. *)
Lemma schedule_progress (max_concurrent : Z) (st : state) :
  schedule_invariant extract_invoice_data documents max_concurrent st ->
  1 <= max_concurrent ->
  all_end extract_invoice_data documents ->
  (0 < work_left st)%nat ->
  exists st', step extract_invoice_data documents st st'.
Proof.
  intros (Hv & Hpos & Hlen & Hres) Hmc Hend Hw.
  destruct (Nat.eq_dec (running st) 0%nat) as [Z0|NZ].
  - destruct (count_pos is_pending (tasks st)) as (i & s & Hi & Hs).
    { unfold work_left, pending in Hw. lia. }
    destruct s as [| |r]; try discriminate Hs.
    eexists. apply (step_enter _ _ st i Hi). lia.
  - destruct (count_pos is_running (tasks st)) as (i & s & Hi & Hs).
    { unfold running in NZ. lia. }
    destruct s as [| |r]; try discriminate Hs.
    assert (is_Some (documents !! i)) as [d Hd].
    { apply lookup_lt_is_Some. rewrite <- Hlen. apply (lookup_lt_Some _ _ _ Hi). }
    specialize (Hend i d Hd). unfold ends in Hend.
    destruct (process_one extract_invoice_data i (fst d) (snd d)) as [r|] eqn:P.
    + eexists. apply (step_leave _ _ st i d r Hi Hd P).
    + exfalso. unfold process_one in P.
      destruct (extract_invoice_data i (snd d)); try discriminate P.
      apply Hend. reflexivity.
Qed.

(** Under the same conditions the batch can be run to its end. *)
Lemma complete_run (max_concurrent : Z) (n : nat) (st : state) :
  1 <= max_concurrent ->
  all_end extract_invoice_data documents ->
  (work_left st <= n)%nat ->
  schedule_invariant extract_invoice_data documents max_concurrent st ->
  exists st' : state,
    rtc (step extract_invoice_data documents) st st' /\ all_finished st'.
Proof.
  intros Hmc Hend. revert st. induction n as [|n IH]; intros st Hw Inv.
  - exists st. split; [apply rtc_refl|apply work_done; lia].
  - destruct (Nat.eq_dec (work_left st) 0%nat) as [Z0|NZ].
    + exists st. split; [apply rtc_refl|apply work_done; exact Z0].
    + destruct (schedule_progress _ _ Inv Hmc Hend) as [st1 Hs]; [lia|].
      destruct (schedule_invariant_step _ _ _ Inv Hs) as [Inv1 W1].
      destruct (IH st1) as (st2 & Hr & Hf); [lia|exact Inv1|].
      exists st2. split; [eapply rtc_l; eassumption|exact Hf].
Qed.

(** X16.  With a bound of at least one the batch cannot run forever: every
    move uses up one of the [2 * len(documents)] moves there are, and when
    none is left every task has finished.  When every extraction comes to
    an end, by returning or by raising, the batch cannot get stuck either:
    from every state the tasks can reach, some task can move unless all
    have finished, and the batch can be run to its end.  When some
    extraction never returns, no state the tasks can reach has every task
    finished. *)
Theorem batch_schedule_progress (max_concurrent : Z) (st0 st : state) :
  start documents max_concurrent = Some st0 ->
  rtc (step extract_invoice_data documents) st0 st ->
  1 <= max_concurrent ->
  (all_end extract_invoice_data documents ->
   (~ all_finished st -> exists st', step extract_invoice_data documents st st')
   /\ exists st' : state,
        rtc (step extract_invoice_data documents) st st' /\ all_finished st') /\
  (forall st', step extract_invoice_data documents st st' ->
     (work_left st' < work_left st)%nat) /\
  (work_left st <= 2 * List.length documents)%nat /\
  (work_left st = 0%nat -> all_finished st) /\
  (~ all_end extract_invoice_data documents -> ~ all_finished st).
Proof.
  intros H0 Hr Hmc.
  destruct (schedule_invariant_reachable _ _ _ H0 Hr) as [Inv W].
  split; [|split; [|split; [exact W|split; [apply work_done|]]]].
  - intros Hend. split.
    + intros Hnf. apply (schedule_progress _ _ Inv Hmc Hend).
      destruct (Nat.eq_dec (work_left st) 0%nat) as [Z0|NZ]; [|lia].
      exfalso. apply Hnf, work_done, Z0.
    + apply (complete_run max_concurrent (work_left st)); auto.
  - intros st' Hs. apply (schedule_invariant_step _ _ _ Inv Hs).
  - intros Hnot Hf. apply Hnot.
    destruct (finished_outcome _ _ _ H0 Hr Hf) as [G _].
    exact (proj1 (gather_from_some extract_invoice_data 0 _ _ G)).
Qed.

(** X17.  With a bound of zero a batch that is not empty never starts: no
    task can enter the semaphore's block, so [gather] waits forever; and a
    negative bound makes the semaphore's constructor raise. *)
Theorem batch_zero_concurrency_hangs (st0 st : state) :
  documents <> [] ->
  start documents 0 = Some st0 ->
  rtc (step extract_invoice_data documents) st0 st ->
  st = st0 /\ ~ all_finished st /\
  (forall st', ~ step extract_invoice_data documents st st') /\
  (forall max_concurrent,
     max_concurrent < 0 -> @start InvoiceData documents max_concurrent = None).
Proof.
  intros Hne H0 Hr.
  destruct (zero_bound_stuck _ _ Hne H0 Hr) as (E & Hnf & Hno).
  split; [exact E|]. split; [exact Hnf|]. split; [exact Hno|].
  intros mc Hmc. unfold start.
  destruct (mc <? 0) eqn:E0; [reflexivity|]. apply Z.ltb_ge in E0. lia.
Qed.

(** X28.  What [batch_process_documents] is said to do is what the tasks
    under the semaphore do: the call returns a list exactly when some run
    of the tasks ends with every task finished and the successes among the
    gathered results are that list; it never returns exactly when the
    semaphore can be made and no run reaches a state with every task
    finished; and it raises exactly when the semaphore's constructor
    does. *)
Theorem batch_outcome_of_schedule (max_concurrent : Z) :
  (forall result,
     batch_process_documents extract_invoice_data documents max_concurrent
     = Returns result <->
     exists st0 st,
       start documents max_concurrent = Some st0
       /\ rtc (step extract_invoice_data documents) st0 st
       /\ all_finished st
       /\ successful (results st) = result) /\
  (batch_process_documents extract_invoice_data documents max_concurrent = Hangs <->
   exists st0,
     start documents max_concurrent = Some st0
     /\ forall st, rtc (step extract_invoice_data documents) st0 st ->
                   ~ all_finished st) /\
  ((exists message,
      batch_process_documents extract_invoice_data documents max_concurrent
      = RaisesValueError message) <->
   @start InvoiceData documents max_concurrent = None).
Proof.
  assert (Hret : forall result,
            batch_process_documents extract_invoice_data documents max_concurrent
            = Returns result ->
            exists st0 st,
              start documents max_concurrent = Some st0
              /\ rtc (step extract_invoice_data documents) st0 st
              /\ all_finished st
              /\ successful (results st) = result).
  { intros result B. pose proof B as B'.
    apply batch_returns in B'. destruct B' as (_ & Hmc & Hcase).
    assert (exists st0 : @state InvoiceData,
               start documents max_concurrent = Some st0) as [st0 H0].
    { unfold start. replace (max_concurrent <? 0) with false
        by (symmetry; apply Z.ltb_ge; exact Hmc). eexists. reflexivity. }
    destruct (schedule_invariant_start _ _ H0) as [Inv0 W0].
    assert (exists st, rtc (step extract_invoice_data documents) st0 st
                       /\ all_finished st) as (st & Hr & Hf).
    { destruct Hcase as [Hnil|[Hpos Hend]].
      - exists st0. split; [apply rtc_refl|]. apply work_done.
        rewrite W0, Hnil. reflexivity.
      - apply (complete_run max_concurrent (work_left st0)); auto; lia. }
    exists st0, st. split; [exact H0|]. split; [exact Hr|]. split; [exact Hf|].
    destruct (finished_outcome _ _ _ H0 Hr Hf) as [_ B2]. congruence. }
  assert (Hneg : @start InvoiceData documents max_concurrent = None
                 <-> max_concurrent < 0).
  { unfold start. destruct (max_concurrent <? 0) eqn:E0.
    - apply Z.ltb_lt in E0. tauto.
    - apply Z.ltb_ge in E0. split; [discriminate|lia]. }
  split; [|split].
  - intros result. split; [apply Hret|].
    intros (st0 & st & H0 & Hr & Hf & <-).
    apply (finished_outcome _ _ _ H0 Hr Hf).
  - split.
    + intros B.
      assert (exists st0 : @state InvoiceData,
               start documents max_concurrent = Some st0) as [st0 H0].
      { unfold start. destruct (max_concurrent <? 0) eqn:E0;
          [|eexists; reflexivity].
        unfold batch_process_documents in B. rewrite E0 in B. discriminate B. }
      exists st0. split; [exact H0|]. intros st Hr Hf.
      destruct (finished_outcome _ _ _ H0 Hr Hf) as [_ B2]. congruence.
    + intros (st0 & H0 & Hnever).
      destruct (batch_process_documents extract_invoice_data documents max_concurrent)
        as [result|message|] eqn:B; [| |reflexivity]; exfalso.
      * destruct (Hret result eq_refl) as (st0' & st & H0' & Hr & Hf & _).
        assert (st0' = st0) by congruence. subst st0'.
        exact (Hnever st Hr Hf).
      * unfold batch_process_documents in B.
        destruct (max_concurrent <? 0) eqn:E0.
        -- apply Z.ltb_lt in E0. apply Hneg in E0. congruence.
        -- destruct documents; [discriminate B|].
           destruct (max_concurrent =? 0); [discriminate B|].
           destruct (gather_results _ _); discriminate B.
  - rewrite Hneg. unfold batch_process_documents. split.
    + intros [message B]. destruct (max_concurrent <? 0) eqn:E0;
        [apply Z.ltb_lt, E0|].
      destruct documents; [discriminate B|].
      destruct (max_concurrent =? 0); [discriminate B|].
      destruct (gather_results _ _); discriminate B.
    + intros H. apply Z.ltb_lt in H. rewrite H. eexists. reflexivity.
Qed.

End BatchScheduleFacts.

Section BatchScheduleExamples.

Import Batch BatchSchedule.
Local Open Scope string_scope.

(** X14 on a batch of one document, after its task has entered the block. *)
Lemma batch_concurrency_bounded_witness :
  Z.of_nat (running (mk_state 0 [@Running string])) <= 1.
Proof.
  refine (proj1 (batch_concurrency_bounded
                   (fun (i : nat) (text : string) => Extracted text)
                   [("doc_0", "ok")] 1
                   (mk_state 1 [Pending]) (mk_state 0 [Running]) eq_refl _)).
  eapply rtc_l; [|apply rtc_refl].
  exact (step_enter _ [("doc_0", "ok")] (mk_state 1 [Pending]) 0 eq_refl eq_refl).
Defined.

(** X15 on a batch of one document, run to its end. *)
Lemma batch_result_schedule_independent_witness :
  gather_results (fun (i : nat) (text : string) => Extracted text)
    [("doc_0", "ok")]
  = Some (results (mk_state 1 [Finished ("doc_0", Some "ok")])).
Proof.
  refine (proj1 (batch_result_schedule_independent
                   (fun (i : nat) (text : string) => Extracted text)
                   [("doc_0", "ok")] 1
                   (mk_state 1 [Pending])
                   (mk_state 1 [Finished ("doc_0", Some "ok")]) eq_refl _ _)).
  - eapply rtc_l.
    + exact (step_enter _ [("doc_0", "ok")] (mk_state 1 [Pending]) 0 eq_refl eq_refl).
    + eapply rtc_l; [|apply rtc_refl].
      exact (step_leave (fun (i : nat) (text : string) => Extracted text)
               [("doc_0", "ok")] (mk_state 0 [Running]) 0 ("doc_0", "ok")
               ("doc_0", Some "ok") eq_refl eq_refl eq_refl).
  - repeat constructor.
Defined.

(** X16 on a batch of one document, before anything has run. *)
Lemma batch_schedule_progress_witness :
  (work_left (mk_state 1 [@Pending string]) <= 2 * 1)%nat.
Proof.
  refine (proj1 (proj2 (proj2 (batch_schedule_progress
                   (fun (i : nat) (text : string) => Extracted text)
                   [("doc_0", "ok")] 1
                   (mk_state 1 [Pending]) (mk_state 1 [Pending]) eq_refl _ _)))).
  - apply rtc_refl.
  - lia.
Defined.

(** X17 on a batch of one document. *)
Lemma batch_zero_concurrency_hangs_witness :
  ~ all_finished (mk_state 0 [@Pending string]).
Proof.
  refine (proj1 (proj2 (batch_zero_concurrency_hangs
                   (fun (i : nat) (text : string) => Extracted text)
                   [("doc_0", "ok")]
                   (mk_state 0 [Pending]) (mk_state 0 [Pending]) _ eq_refl _))).
  - discriminate.
  - apply rtc_refl.
Defined.

(** A batch of 61 documents of which the last never returns, as when the
    rate limiter blocks the call: with any bound that is not negative the
    call never returns, and the sixty extractions that succeeded are
    lost with it. *)
Lemma batch_hangs_on_blocked_extraction :
  let extract := fun (i : nat) (text : string) =>
    if (i <? 60)%nat then Extracted text else NeverReturns in
  let documents := List.map (fun _ : nat => ("doc", "text")) (List.seq 0 61) in
  batch_process_documents extract documents 10 = Hangs /\
  batch_process_documents extract (List.firstn 60 documents) 10
  = Returns (List.firstn 60 documents).
Proof. cbv zeta. split; vm_compute; reflexivity. Qed.

End BatchScheduleExamples.

(** ** Metrics, further *)

Section MetricsMore.

Import Metrics MetricsLog.
Local Open Scope string_scope.

(** One step of the fold that [record_all] is. *)
Lemma record_all_snoc (calls : list request) (r : request) :
  record_all (calls ++ [r])
  = record_request (record_all calls) (success r) (tokens_used r)
      (response_time r) (error r).
Proof. unfold record_all. rewrite fold_left_app. reflexivity. Qed.

Lemma record_all_fields (calls : list request) :
  response_times (record_all calls) = List.map response_time calls /\
  total_tokens (record_all calls) = py_sum (List.map tokens_used calls) /\
  successful_requests (record_all calls)
  = Z.of_nat (List.length (List.filter success calls)) /\
  failed_requests (record_all calls)
  = Z.of_nat (List.length (List.filter (fun r => negb (success r)) calls)).
Proof.
  induction calls as [|r calls IH] using rev_ind.
  - repeat split.
  - destruct IH as (H1 & H2 & H3 & H4). rewrite record_all_snoc.
    unfold record_request. simpl.
    rewrite !List.map_app, !List.filter_app, !List.length_app, py_sum_app.
    rewrite H1, H2, H3, H4. simpl.
    destruct (success r); simpl; unfold py_sum; simpl; repeat split; lia.
Qed.

(** X18.  The collector loses nothing: after any sequence of calls the
    latency samples are the latencies of the calls in call order, the token
    total is the sum of their token counts, and the success and failure
    counters count the calls of each kind. *)
Theorem record_all_keeps_every_call (calls : list request) :
  let m := record_all calls in
  response_times m = List.map response_time calls /\
  total_tokens m = py_sum (List.map tokens_used calls) /\
  successful_requests m = Z.of_nat (List.length (List.filter success calls)) /\
  failed_requests m
  = Z.of_nat (List.length (List.filter (fun r => negb (success r)) calls)).
Proof. cbv zeta. apply record_all_fields. Qed.

Lemma count_error_lookup (e' e : string) (errs : gmap string Z) :
  default 0 (count_error e' errs !! e)
  = default 0 (errs !! e) + (if String.eqb e' e then 1 else 0).
Proof.
  unfold count_error. destruct (String.eqb e' e) eqn:E.
  - apply String.eqb_eq in E. subst. rewrite lookup_insert_eq. reflexivity.
  - apply String.eqb_neq in E. rewrite lookup_insert_ne by exact E. lia.
Qed.

Lemma record_request_errors (m : APIMetrics) (r : request) (e : string) :
  e <> "" ->
  default 0 (errors (record_request m (success r) (tokens_used r)
                       (response_time r) (error r)) !! e)
  = default 0 (errors m !! e) + (if failed_with e r then 1 else 0).
Proof.
  intros Hne. unfold record_request, failed_with. simpl.
  destruct (success r); simpl; [lia|].
  destruct (error r) as [e'|]; [|lia].
  destruct (String.eqb e' "") eqn:E0.
  - apply String.eqb_eq in E0. subst e'.
    destruct (String.eqb "" e) eqn:E1; [|lia].
    apply String.eqb_eq in E1. congruence.
  - apply count_error_lookup.
Qed.

(** A call that did not fail naming [e] leaves the entry of [e] as it is. *)
Lemma record_request_errors_other (m : APIMetrics) (r : request) (e : string) :
  failed_with e r = false \/ e = "" ->
  errors (record_request m (success r) (tokens_used r) (response_time r) (error r))
  !! e = errors m !! e.
Proof.
  unfold record_request, failed_with. simpl. intros H.
  destruct (success r); [reflexivity|].
  destruct (error r) as [e'|]; [|reflexivity].
  destruct (String.eqb e' "") eqn:E0; [reflexivity|].
  apply String.eqb_neq in E0. unfold count_error. apply lookup_insert_ne.
  destruct H as [H | ->]; [|exact E0].
  simpl in H. apply String.eqb_neq in H. exact H.
Qed.

Lemma record_all_errors_count (calls : list request) (e : string) :
  e <> "" ->
  default 0 (errors (record_all calls) !! e)
  = Z.of_nat (List.length (List.filter (failed_with e) calls)).
Proof.
  intros Hne. induction calls as [|r calls IH] using rev_ind; [reflexivity|].
  rewrite record_all_snoc, (record_request_errors _ _ _ Hne), IH.
  rewrite List.filter_app, List.length_app. simpl.
  destruct (failed_with e r); simpl; lia.
Qed.

Lemma record_all_errors_none (calls : list request) (e : string) :
  List.filter (failed_with e) calls = [] \/ e = "" ->
  errors (record_all calls) !! e = None.
Proof.
  induction calls as [|r calls IH] using rev_ind; intros H; [reflexivity|].
  rewrite record_all_snoc.
  assert (Hr : failed_with e r = false \/ e = "").
  { destruct H as [H | H]; [left|right; exact H].
    rewrite List.filter_app in H. apply List.app_eq_nil in H. destruct H as [_ H].
    simpl in H. destruct (failed_with e r); [discriminate H|reflexivity]. }
  rewrite (record_request_errors_other _ _ _ Hr). apply IH.
  destruct H as [H | H]; [left|right; exact H].
  rewrite List.filter_app in H. apply List.app_eq_nil in H. tauto.
Qed.

Lemma failed_with_count_le (calls : list request) (e : string) :
  (List.length (List.filter (failed_with e) calls)
   <= List.length (List.filter (fun r => negb (success r)) calls))%nat.
Proof.
  induction calls as [|r calls IH]; simpl; [lia|]. unfold failed_with at 1.
  destruct (success r); simpl; [exact IH|].
  destruct (match error r with Some e' => String.eqb e' e | None => false end);
    simpl; lia.
Qed.

(** X19.  The error table counts, for every error text, the failed calls
    that named it: successful calls, failures without an error and failures
    with an empty error text are not counted, a text no failure named has
    no entry, and no count exceeds the number of failures. *)
Theorem record_all_counts_errors (calls : list request) (e : string) :
  let m := record_all calls in
  errors m !! "" = None /\
  (e <> "" ->
   default 0 (errors m !! e)
   = Z.of_nat (List.length (List.filter (failed_with e) calls))) /\
  (List.filter (failed_with e) calls = [] -> errors m !! e = None) /\
  Z.of_nat (List.length (List.filter (failed_with e) calls)) <= failed_requests m.
Proof.
  cbv zeta. split; [apply record_all_errors_none; right; reflexivity|].
  split; [apply record_all_errors_count|].
  split; [intros H; apply record_all_errors_none; left; exact H|].
  destruct (record_all_fields calls) as (_ & _ & _ & ->).
  pose proof (failed_with_count_le calls e). lia.
Qed.

End MetricsMore.

(** ** The percentile, further *)

Section PercentileMore.

Import Metrics MetricsLog.

Lemma sorted_strongly (l : list Z) : StronglySorted Z.le (sorted l).
Proof.
  apply Sorted_StronglySorted; [|apply sorted_sorted].
  intros x y z. apply Z.le_trans.
Qed.

Lemma filter_length_perm (f : Z -> bool) (l l' : list Z) :
  Permutation l l' ->
  List.length (List.filter f l) = List.length (List.filter f l').
Proof.
  induction 1 as [|x l l' _ IH|x y l|l l' l'' _ IH1 _ IH2]; simpl.
  - reflexivity.
  - destruct (f x); simpl; lia.
  - destruct (f x), (f y); reflexivity.
  - lia.
Qed.

Lemma filter_all (f : Z -> bool) (l : list Z) :
  Forall (fun x => f x = true) l -> List.filter f l = l.
Proof.
  induction 1 as [|x l Hx _ IH]; simpl; [reflexivity|]. rewrite Hx, IH. reflexivity.
Qed.

(** In an ascending list the entry at an index has at least the entries up
    to it below or equal, and at least the entries from it on above or
    equal. *)
Lemma sorted_rank (l : list Z) (i : nat) (v : Z) :
  StronglySorted Z.le l -> nth_error l i = Some v ->
  (i < at_most v l)%nat /\ (List.length l - i <= at_least v l)%nat.
Proof.
  unfold at_most, at_least. intros Hs. revert i.
  induction Hs as [|x l Hs IH Hx]; intros i Hi; [destruct i; discriminate Hi|].
  destruct i as [|i]; simpl in Hi.
  - injection Hi as ->. simpl. rewrite Z.leb_refl. simpl. split; [lia|].
    rewrite (filter_all (fun y => v <=? y) l); [lia|].
    eapply List.Forall_impl; [|exact Hx]. intros y Hy. apply Z.leb_le, Hy.
  - destruct (IH i Hi) as [A B]. simpl.
    assert (Hxv : x <= v).
    { rewrite List.Forall_forall in Hx. apply Hx. eapply nth_error_In, Hi. }
    replace (x <=? v) with true by (symmetry; apply Z.leb_le; exact Hxv).
    simpl. split; [lia|]. destruct (v <=? x); simpl; lia.
Qed.

(** X20.  The 95th percentile of samples that are not empty is one of the
    samples; more than [floor(0.95 * count)] samples are at most that value
    and at least [count - floor(0.95 * count)] samples are at least that
    value. *)
Theorem p95_response_time_rank (m : APIMetrics) (v : Z) :
  response_times m <> [] ->
  p95_response_time m = Some v ->
  In v (response_times m) /\
  (p95_index (List.length (response_times m)) < at_most v (response_times m))%nat /\
  (List.length (response_times m) - p95_index (List.length (response_times m))
   <= at_least v (response_times m))%nat.
Proof.
  intros Hne H. unfold p95_response_time in H.
  destruct (response_times m) as [|t ts] eqn:E; [contradiction|].
  rewrite sorted_length in H.
  pose proof (sorted_perm (t :: ts)) as P.
  destruct (sorted_rank _ _ _ (sorted_strongly (t :: ts)) H) as [A B].
  unfold at_most, at_least in *.
  rewrite <- (filter_length_perm (fun x => x <=? v) _ _ P) in A.
  rewrite <- (filter_length_perm (fun x => v <=? x) _ _ P) in B.
  rewrite sorted_length in B.
  split; [|split; assumption].
  apply (Permutation_in v (Permutation_sym P)). eapply nth_error_In, H.
Qed.

(** The theorem on the ten samples 100, 200, ..., 1000. *)
Lemma p95_response_time_rank_witness :
  In 1000 latencies_100_to_1000 /\
  (9 < at_most 1000 latencies_100_to_1000)%nat.
Proof.
  destruct (p95_response_time_rank (with_times latencies_100_to_1000) 1000)
    as (H1 & H2 & _); [discriminate|reflexivity|].
  split; assumption.
Defined.

(** Two ascending lists with the same entries are equal. *)
Lemma sorted_unique (l l' : list Z) :
  StronglySorted Z.le l -> StronglySorted Z.le l' -> Permutation l l' -> l = l'.
Proof.
  intros Hs. revert l'. induction Hs as [|x l Hs IH Hx]; intros l' Hs' P.
  - apply Permutation_nil in P. symmetry. exact P.
  - destruct Hs' as [|y l' Hs' Hy].
    + apply Permutation_sym, Permutation_nil in P. discriminate P.
    + assert (Hxy : x = y).
      { assert (In x (y :: l')) as Ix by (apply (Permutation_in x P); left; reflexivity).
        assert (In y (x :: l)) as Iy
          by (apply (Permutation_in y (Permutation_sym P)); left; reflexivity).
        rewrite List.Forall_forall in Hx, Hy.
        destruct Ix as [Ix|Ix]; [symmetry; exact Ix|].
        destruct Iy as [Iy|Iy]; [exact Iy|].
        pose proof (Hy x Ix). pose proof (Hx y Iy). lia. }
      subst y. f_equal. apply IH; [exact Hs'|].
      apply (Permutation_cons_inv P).
Qed.

(** X21.  The percentile depends on the samples only, not on the order in
    which they were recorded. *)
Theorem p95_response_time_order_independent (m m' : APIMetrics) :
  Permutation (response_times m) (response_times m') ->
  p95_response_time m = p95_response_time m'.
Proof.
  intros P. unfold p95_response_time.
  assert (S : sorted (response_times m) = sorted (response_times m')).
  { apply sorted_unique; try apply sorted_strongly.
    rewrite <- (sorted_perm (response_times m)), <- (sorted_perm (response_times m')).
    exact P. }
  destruct (response_times m) as [|t ts] eqn:E, (response_times m') as [|t' ts'] eqn:E'.
  - reflexivity.
  - apply Permutation_nil in P. discriminate P.
  - apply Permutation_sym, Permutation_nil in P. discriminate P.
  - rewrite S. reflexivity.
Qed.

(** The theorem on three samples recorded in two orders. *)
Lemma p95_response_time_order_independent_witness :
  p95_response_time (with_times [3; 1; 2]) = p95_response_time (with_times [1; 2; 3]).
Proof.
  apply (p95_response_time_order_independent (with_times [3; 1; 2])
           (with_times [1; 2; 3])).
  simpl. apply Permutation_sym.
  apply (perm_trans (l' := [1; 3; 2])); [|apply perm_swap].
  apply perm_skip, perm_swap.
Defined.

End PercentileMore.

(** ** The token estimate *)

Section TokenEstimateFacts.

Import PyStr TokenEstimate RateLimiter Ledger.
Local Open Scope string_scope.

Lemma words_cons (c : ascii) (s : string) :
  words (String c s) =
  if isspace c then words s
  else if starts_word s then
    match words s with
    | w :: ws => String c w :: ws
    | [] => [String c ""]
    end
  else String c "" :: words s.
Proof. reflexivity. Qed.

(** A text that starts a word has a first word. *)
Lemma words_starts (s : string) :
  starts_word s = true -> exists w ws, words s = w :: ws.
Proof.
  destruct s as [|c s]; [discriminate|]. simpl starts_word. intros H.
  rewrite words_cons. apply negb_true_iff in H. rewrite H.
  destruct (starts_word s); [destruct (words s)|]; eauto.
Qed.

Lemma words_concat (s : string) : concat_words (words s) = without_spaces s.
Proof.
  induction s as [|c s IH]; [reflexivity|].
  rewrite words_cons. simpl without_spaces. destruct (isspace c); [exact IH|].
  destruct (starts_word s) eqn:E.
  - destruct (words_starts s E) as (w & ws & Hw). rewrite Hw in *.
    simpl in *. rewrite IH. reflexivity.
  - simpl. rewrite IH. reflexivity.
Qed.

Lemma words_no_space (s : string) :
  Forall (fun w => w <> "" /\ all_chars (fun c => negb (isspace c)) w = true)
         (words s).
Proof.
  induction s as [|c s IH]; [constructor|].
  rewrite words_cons. destruct (isspace c) eqn:Hc; [exact IH|].
  destruct (starts_word s).
  - destruct (words s) as [|w ws].
    + constructor; [|constructor]. split; [discriminate|]. simpl. rewrite Hc. reflexivity.
    + inversion IH as [|? ? [_ Hw] Hws]; subst. constructor; [|exact Hws].
      split; [discriminate|]. simpl. rewrite Hc. exact Hw.
  - constructor; [|exact IH]. split; [discriminate|]. simpl. rewrite Hc. reflexivity.
Qed.

(** Two words need a white space between them: a text of [n] characters
    has at most [(n + 1) / 2] words, and one fewer place is needed when it
    starts with a word. *)
Lemma words_length (s : string) :
  (2 * List.length (words s) + (if starts_word s then 0 else 1)
   <= String.length s + 1)%nat.
Proof.
  induction s as [|c s IH]; [simpl; lia|].
  rewrite words_cons. simpl starts_word. simpl String.length.
  destruct (isspace c); simpl negb.
  - destruct (starts_word s); lia.
  - destruct (starts_word s) eqn:E.
    + destruct (words_starts s E) as (w & ws & Hw). rewrite Hw in *. simpl in *. lia.
    + simpl. lia.
Qed.

(** X22.  [str.split()] as the estimate uses it: the words, put together,
    are the text without its white space; no word is empty or holds white
    space; and a text of [n] characters has at most [(n + 1) / 2] words,
    none at all when it is empty or all white space. *)
Theorem words_of_text (s : string) :
  concat_words (words s) = without_spaces s /\
  Forall (fun w => w <> "" /\ all_chars (fun c => negb (isspace c)) w = true)
         (words s) /\
  (2 * List.length (words s) <= String.length s + 1)%nat /\
  (words s = [] <-> all_chars isspace s = true).
Proof.
  split; [apply words_concat|]. split; [apply words_no_space|]. split.
  - pose proof (words_length s). destruct (starts_word s); lia.
  - induction s as [|c s IH]; [split; reflexivity|].
    rewrite words_cons. simpl all_chars. destruct (isspace c); simpl.
    + exact IH.
    + split; [|discriminate]. destruct (starts_word s); [|discriminate].
      destruct (words s); discriminate.
Qed.

Lemma estimated_tokens_nonneg (system_prompt user_message : string) :
  0 <= estimated_tokens system_prompt user_message.
Proof.
  unfold estimated_tokens.
  assert (0 <= 13 * Z.of_nat (List.length (words user_message)) / 10)
    by (apply Z.div_pos; lia).
  lia.
Qed.

(** X23.  The estimate [complete_chat] passes to the rate limiter is never
    negative; it is at least the number of words of the two prompts, at
    most the words of the system prompt plus 1.3 times those of the user
    message, so never more than 0.65 per character plus 1.15; and it is 0
    exactly when both prompts are blank. *)
Theorem estimated_tokens_bounds (system_prompt user_message : string) :
  let a := Z.of_nat (List.length (words system_prompt)) in
  let b := Z.of_nat (List.length (words user_message)) in
  let est := estimated_tokens system_prompt user_message in
  0 <= est /\
  a + b <= est /\
  10 * est <= 10 * a + 13 * b /\
  20 * est <= 10 * Z.of_nat (String.length system_prompt)
              + 13 * Z.of_nat (String.length user_message) + 23 /\
  (est = 0 <-> all_chars isspace system_prompt = true
               /\ all_chars isspace user_message = true).
Proof.
  cbv zeta. unfold estimated_tokens.
  destruct (words_of_text system_prompt) as (_ & _ & La & Ea).
  destruct (words_of_text user_message) as (_ & _ & Lb & Eb).
  set (a := List.length (words system_prompt)) in *.
  set (b := List.length (words user_message)) in *.
  assert (Hdiv : 10 * (13 * Z.of_nat b / 10) <= 13 * Z.of_nat b
                 /\ 13 * Z.of_nat b < 10 * (13 * Z.of_nat b / 10) + 10).
  { pose proof (Z.div_mod (13 * Z.of_nat b) 10 ltac:(lia)).
    pose proof (Z.mod_pos_bound (13 * Z.of_nat b) 10 ltac:(lia)). lia. }
  destruct Hdiv as [D1 D2].
  split; [lia|]. split; [lia|]. split; [lia|]. split; [lia|]. split.
  - intros Hz. split.
    + apply Ea. subst a. destruct (words system_prompt); [reflexivity|].
      simpl in *. lia.
    + apply Eb. subst b. destruct (words user_message); [reflexivity|].
      simpl in *. lia.
  - intros [Ha Hb]. apply Ea in Ha. apply Eb in Hb. subst a b.
    rewrite Ha, Hb. reflexivity.
Qed.

End TokenEstimateFacts.

Section ChatLedgerFacts.

Import PyStr TokenEstimate RateLimiter Ledger.
Local Open Scope string_scope.

(** X24.  The calls [complete_chat] makes keep the limiter's ledger within
    budget at every point: whatever the prompts and the clock readings, on
    a limiter created with limits that are not negative every ledger a call
    finds or leaves holds at most [max_requests] requests and at most
    [max_tokens] tokens, none of them negative. *)
Theorem complete_chat_keeps_ledger_within_budget
    (max_requests0 max_tokens0 window_seconds0 : Z)
    (chats : list (Z * string * string)) :
  0 <= max_requests0 -> 0 <= max_tokens0 ->
  Forall (fun c => match c with
                   | (s0, _, _, d) => within_budget s0 /\ within_budget (ledger_after d)
                   end)
         (acquire_calls (init max_requests0 max_tokens0 window_seconds0)
            (List.map acquire_of_chat chats)).
Proof.
  intros Hr Ht. apply within_budget_calls.
  - apply List.Forall_forall. intros c Hc. apply List.in_map_iff in Hc.
    destruct Hc as ([[now sp] um] & <- & _). simpl. apply estimated_tokens_nonneg.
  - unfold within_budget, init, sum_tokens, py_sum. simpl.
    repeat split; try lia. constructor.
Qed.

(** The theorem on two chats one second apart, at the default limits. *)
Lemma complete_chat_keeps_ledger_within_budget_witness :
  Forall (fun c => match c with
                   | (s0, _, _, d) => within_budget s0 /\ within_budget (ledger_after d)
                   end)
         (acquire_calls (init 60 90000 60)
            (List.map acquire_of_chat
               [(0, "Sei un assistente.", "Documento da analizzare: FATTURA N. 1");
                (1000000, "Sei un assistente.", "Documento da analizzare: FATTURA N. 2")])).
Proof.
  apply (complete_chat_keeps_ledger_within_budget 60 90000 60); lia.
Defined.

End ChatLedgerFacts.

(** ** The prompt optimizer *)

Section PromptOptimizerFacts.

Import PromptOptimizer.
Local Open Scope string_scope.

Variables invoice_number_text date_text vat_number_text total_amount_text : string.

Local Abbreviation optimize :=
  (optimize_extraction_prompt invoice_number_text date_text vat_number_text
     total_amount_text) (only parsing).

Local Abbreviation advice :=
  (_get_field_enhancements invoice_number_text date_text vat_number_text
     total_amount_text) (only parsing).

Local Abbreviation all_calls :=
  (optimize_all invoice_number_text date_text vat_number_text total_amount_text)
  (only parsing).

Lemma optimize_all_snoc (calls : list call) (c : call) :
  all_calls (calls ++ [c])
  = snd (optimize (all_calls calls) (base_prompt c) (field_name c) (success_rate c)).
Proof. unfold optimize_all. rewrite fold_left_app. reflexivity. Qed.

Lemma optimize_metrics (sm : gmap string (list Q)) (b f : string) (r : Q) :
  snd (optimize sm b f r) = <[f := (default [] (sm !! f) ++ [r])%list]> sm.
Proof.
  unfold optimize_extraction_prompt.
  destruct (negb (Qle_bool (8 # 10)%Q r)); reflexivity.
Qed.

Lemma optimize_all_lookup (calls : list call) (f : string) :
  default [] (all_calls calls !! f) = rates_of f calls
  /\ (rates_of f calls = [] -> all_calls calls !! f = None).
Proof.
  unfold rates_of. induction calls as [|c calls [IH1 IH2]] using rev_ind.
  - split; reflexivity.
  - rewrite optimize_all_snoc, optimize_metrics.
    rewrite List.filter_app, List.map_app. simpl.
    destruct (String.eqb (field_name c) f) eqn:E.
    + apply String.eqb_eq in E. subst f. rewrite lookup_insert_eq. simpl.
      rewrite IH1. split; [reflexivity|].
      intros H. apply List.app_eq_nil in H. destruct H as [_ H]. discriminate H.
    + apply String.eqb_neq in E. rewrite lookup_insert_ne by exact E.
      simpl. rewrite List.app_nil_r. split; assumption.
Qed.

(** X25.  The optimizer's history is exact: after any sequence of calls on
    a new optimizer, the entry of a field holds the rates of the calls made
    for that field, in call order, and a field no call was made for has no
    entry; a call changes the entry of its own field only, by appending its
    rate. *)
Theorem optimizer_history (calls : list call) (f : string) :
  default [] (all_calls calls !! f) = rates_of f calls /\
  (all_calls calls !! f = None <-> rates_of f calls = []) /\
  (forall sm b g r,
     snd (optimize sm b g r) !! g = Some (default [] (sm !! g) ++ [r])%list
     /\ (f <> g -> snd (optimize sm b g r) !! f = sm !! f)).
Proof.
  destruct (optimize_all_lookup calls f) as [H1 H2].
  split; [exact H1|]. split; [split; [|exact H2]|].
  - intros H. rewrite <- H1, H. reflexivity.
  - intros sm b g r. rewrite optimize_metrics. split.
    + apply lookup_insert_eq.
    + intros Hne. apply lookup_insert_ne. congruence.
Qed.

Lemma prefix_app (a b : string) : String.prefix a (a ++ b) = true.
Proof.
  induction a as [|c a IH]; [apply prefix_nil|].
  simpl append. rewrite prefix_cons, Ascii.eqb_refl. exact IH.
Qed.

Lemma append_length (a b : string) :
  String.length (a ++ b) = (String.length a + String.length b)%nat.
Proof. induction a as [|c a IH]; simpl; [reflexivity|]. rewrite IH. reflexivity. Qed.

(** X26.  The optimizer never alters the base prompt: the prompt returned
    starts with it; it is the base prompt itself when the rate is at least
    0.8, and otherwise the base prompt followed by a header naming the
    field and by the advice for the field, which is the table's text for
    the four keys of the table and the generic sentence for every other
    name, the VAT and date fields of [InvoiceData] among them. *)
Theorem optimizer_prompt (sm : gmap string (list Q)) (b f : string) (r : Q) :
  String.prefix b (fst (optimize sm b f r)) = true /\
  ((8 # 10 <= r)%Q -> fst (optimize sm b f r) = b) /\
  ((r < 8 # 10)%Q ->
   fst (optimize sm b f r) = b ++ attention_header f ++ advice f
   /\ (String.length b < String.length (fst (optimize sm b f r)))%nat) /\
  (f <> "invoice_number" -> f <> "date" -> f <> "vat_number" ->
   f <> "total_amount" ->
   advice f = "Verifica attentamente questo campo.") /\
  advice "invoice_number" = invoice_number_text /\
  advice "date" = date_text /\
  advice "vat_number" = vat_number_text /\
  advice "total_amount" = total_amount_text /\
  advice "supplier_vat" = "Verifica attentamente questo campo." /\
  advice "client_vat" = "Verifica attentamente questo campo." /\
  advice "invoice_date" = "Verifica attentamente questo campo.".
Proof.
  assert (Other : forall g, g <> "invoice_number" -> g <> "date" ->
            g <> "vat_number" -> g <> "total_amount" ->
            advice g = "Verifica attentamente questo campo.").
  { intros g H1 H2 H3 H4. unfold _get_field_enhancements, enhancements.
    rewrite !lookup_insert_ne by congruence. reflexivity. }
  unfold optimize_extraction_prompt.
  split; [|split; [|split; [|split; [exact (Other f)|]]]].
  - destruct (negb (Qle_bool (8 # 10)%Q r)); simpl;
      [apply prefix_app|apply prefix_refl].
  - intros H. apply Qle_bool_iff in H. rewrite H. reflexivity.
  - intros H. assert (E : Qle_bool (8 # 10)%Q r = false).
    { destruct (Qle_bool (8 # 10)%Q r) eqn:E; [|reflexivity].
      apply Qle_bool_iff in E. exfalso. exact (Qlt_not_le _ _ H E). }
    rewrite E. simpl. split; [reflexivity|].
    rewrite !append_length. unfold attention_header. simpl. lia.
  - unfold _get_field_enhancements at 1 2 3 4. unfold enhancements.
    split; [rewrite lookup_insert_eq; reflexivity|].
    split; [rewrite lookup_insert_ne by discriminate;
            rewrite lookup_insert_eq; reflexivity|].
    split; [rewrite !lookup_insert_ne by discriminate;
            rewrite lookup_insert_eq; reflexivity|].
    split; [rewrite !lookup_insert_ne by discriminate;
            rewrite lookup_insert_eq; reflexivity|].
    split; [|split]; apply Other; discriminate.
Qed.

End PromptOptimizerFacts.

(** ** The phone and VAT substitutions *)

Section SanitizeFacts.

Import PyStr Sanitize.
Local Open Scope string_scope.

Variables (lo hi : nat) (repl : string).

Lemma sub_words_word (cur w : string) :
  all_chars is_word w = true ->
  sub_words lo hi repl cur w = flush lo hi repl (cur ++ w).
Proof.
  revert cur. induction w as [|c w IH]; intros cur H; simpl.
  - rewrite append_nil_r. reflexivity.
  - simpl in H. apply andb_true_iff in H. destruct H as [Hc Hw].
    rewrite Hc, (IH _ Hw), append_assoc. reflexivity.
Qed.

(** A character that is not a word character ends the run before it. *)
Lemma sub_words_app (cur a : string) (c : ascii) (rest : string) :
  is_word c = false ->
  sub_words lo hi repl cur (a ++ String c rest)
  = sub_words lo hi repl cur a ++ String c (sub_words lo hi repl "" rest).
Proof.
  intros Hc. revert cur. induction a as [|d a IH]; intros cur; simpl.
  - rewrite Hc. reflexivity.
  - destruct (is_word d); [apply IH|].
    rewrite IH, append_assoc. reflexivity.
Qed.

End SanitizeFacts.

Section SanitizeShadow.

Import PyStr Sanitize.
Local Open Scope string_scope.

(** A second substitution whose lengths lie within 10 to 11 finds nothing
    left to replace after the phone substitution. *)
Lemma sub_after_phone (lo hi : nat) (repl : string) (s cur : string) :
  (10 <= lo)%nat -> (hi <= 11)%nat ->
  all_chars is_word cur = true ->
  sub_words lo hi repl "" (sub_words 10 11 "[PHONE]" cur s)
  = sub_words 10 11 "[PHONE]" cur s.
Proof.
  intros Hlo Hhi.
  assert (F0 : flush lo hi repl "" = "").
  { unfold flush, digit_word. simpl.
    destruct lo as [|n]; [lia|]. reflexivity. }
  assert (Base : forall w, all_chars is_word w = true ->
            sub_words lo hi repl "" (flush 10 11 "[PHONE]" w)
            = flush 10 11 "[PHONE]" w).
  { intros w Hw. unfold flush. destruct (digit_word 10 11 w) eqn:D.
    - change "[PHONE]" with ("" ++ String "[" ("PHONE" ++ String "]" "")).
      rewrite sub_words_app by reflexivity.
      rewrite sub_words_app by reflexivity.
      rewrite (sub_words_word lo hi repl "" "PHONE") by reflexivity.
      simpl. rewrite F0. reflexivity.
    - rewrite sub_words_word by exact Hw. simpl. unfold flush.
      destruct (digit_word lo hi w) eqn:D2; [|reflexivity]. exfalso.
      unfold digit_word in D, D2.
      apply andb_true_iff in D2. destruct D2 as [D2 L2].
      apply andb_true_iff in D2. destruct D2 as [Dd L1].
      apply Nat.leb_le in L1, L2. rewrite Dd in D.
      replace (10 <=? String.length w)%nat with true in D
        by (symmetry; apply Nat.leb_le; lia).
      replace (String.length w <=? 11)%nat with true in D
        by (symmetry; apply Nat.leb_le; lia).
      discriminate D. }
  revert cur. induction s as [|c s IH]; intros cur Hcur; simpl.
  - apply Base, Hcur.
  - destruct (is_word c) eqn:Hc.
    + apply IH. clear - Hcur Hc. induction cur as [|d cur IHc]; simpl in *.
      * rewrite Hc. reflexivity.
      * apply andb_true_iff in Hcur. destruct Hcur as [Hd Hcur].
        rewrite Hd. simpl. apply IHc, Hcur.
    + rewrite sub_words_app by exact Hc.
      rewrite (Base _ Hcur), (IH "" eq_refl). reflexivity.
Qed.

(** X27.  In [sanitize_pii] the VAT substitution never applies: the phone
    substitution that runs before it has already replaced every 11-digit
    number, a VAT number included, by [[PHONE]], so the VAT substitution
    leaves every text the phone substitution produced unchanged; the phone
    substitution itself is idempotent. *)
Theorem sanitize_vat_shadowed_by_phone (text : string) :
  sub_vat (sub_phone text) = sub_phone text /\
  sub_phone (sub_phone text) = sub_phone text /\
  sub_phone "P.IVA 12345678901" = "P.IVA [PHONE]" /\
  sub_vat "P.IVA 12345678901" = "P.IVA [VAT]".
Proof.
  unfold sub_vat, sub_phone. split; [|split; [|split; reflexivity]].
  - apply sub_after_phone; [lia|lia|reflexivity].
  - apply sub_after_phone; [lia|lia|reflexivity].
Qed.

End SanitizeShadow.
